(** * fate: text values, windowed texts and the text view engine

    A shallow embedding of [fate/text.py] and [fate/textview.py], with
    [Session.content] of [session.py].
    Python integers are [Z], a [str] is a list of characters, raised
    exceptions are values of [result], and the two [while] loops of the
    view engine are run on explicit fuel. *)

From Stdlib Require Import ZArith List Ascii String Bool Lia.
From stdpp Require Import gmap strings pretty sorting.
Import ListNotations.

Local Open Scope Z_scope.

(** ** Python values *)

Definition str := list ascii.

(** A string literal as a [str]. *)
Definition py (s : string) : str := list_ascii_of_string s.

Definition len {A} (l : list A) : Z := Z.of_nat (length l).

(** The exceptions the two modules raise. An [AssertionError] carries the
    message of its [assert] statement; a [TypeError] is what a call with
    the wrong number of arguments ends in. *)
Inductive exn :=
| ValueError
| IndexError
| TypeError
| AssertionError (msg : string).

Inductive result (A : Type) :=
| Ok (a : A)
| Raise (e : exn).
Arguments Ok {A} a.
Arguments Raise {A} e.

#[global] Instance result_ret : MRet result := fun A a => Ok a.
#[global] Instance result_bind : MBind result := fun A B k r =>
  match r with
  | Ok a => k a
  | Raise e => Raise e
  end.

Definition assert_ (b : bool) (msg : string) : result unit :=
  if b then Ok tt else Raise (AssertionError msg).

(** A computation with a [while] loop runs on fuel: [OutOfFuel] when the
    fuel is used up before the loop guard becomes false. *)
Inductive fueled (A : Type) :=
| Done (r : result A)
| OutOfFuel.
Arguments Done {A} r.
Arguments OutOfFuel {A}.

#[global] Instance fueled_ret : MRet fueled := fun A a => Done (Ok a).
#[global] Instance fueled_bind : MBind fueled := fun A B k c =>
  match c with
  | Done (Ok a) => k a
  | Done (Raise e) => Done (Raise e)
  | OutOfFuel => OutOfFuel
  end.

(** [range(a, b)]. *)
Definition py_range (a b : Z) : list Z :=
  map (fun k => a + Z.of_nat k) (seq 0 (Z.to_nat (b - a))).

(** [k * [x]]. *)
Definition py_repeat {A} (k : Z) (x : A) : list A := repeat x (Z.to_nat k).

(** Start and stop of a slice are brought into [0, len] the way
    [slice.indices] does for step 1. *)
Definition slice_index (n i : Z) : Z :=
  if i <? 0 then Z.max 0 (i + n) else Z.min i n.

(** [l[a:b]]. *)
Definition py_slice {A} (l : list A) (a b : Z) : list A :=
  let a' := slice_index (len l) a in
  let b' := slice_index (len l) b in
  firstn (Z.to_nat (b' - a')) (skipn (Z.to_nat a') l).

(** [l[:b]]. *)
Definition py_prefix {A} (l : list A) (b : Z) : list A := py_slice l 0 b.

(** [l[i]], negative [i] counting from the end. *)
Definition py_index {A} (l : list A) (i : Z) : result A :=
  let j := if i <? 0 then i + len l else i in
  if j <? 0 then Raise IndexError
  else match nth_error l (Z.to_nat j) with
       | Some x => Ok x
       | None => Raise IndexError
       end.

(** ** Intervals, selections, substitutions *)

Definition Interval := (Z * Z)%type.

(** Modelled from the spec: [fate/selection.py] is not among the sources.
    An interval is a pair [(begin, end)] with [begin <= end] checked at
    construction. *)
Definition mkInterval (b e : Z) : result Interval :=
  _ ← assert_ (b <=? e) ""; Ok (b, e).

(** A selection, iterated in position order. *)
Definition Selection := list Interval.

Definition Substitution := (Interval * str)%type.

(** Modelled from the spec: intervals are ordered lexicographically on
    [(begin, end)]. *)
Definition Interval_ltb (i j : Interval) : bool :=
  (fst i <? fst j) || ((fst i =? fst j) && (snd i <? snd j)).

Definition Interval_eqb (i j : Interval) : bool :=
  (fst i =? fst j) && (snd i =? snd j).

(** [a < b] on [str]: code points, left to right. *)
Fixpoint str_ltb (a b : str) : bool :=
  match a, b with
  | _, [] => false
  | [], _ :: _ => true
  | x :: a', y :: b' =>
      let cx := nat_of_ascii x in
      let cy := nat_of_ascii y in
      (cx <? cy)%nat || ((cx =? cy)%nat && str_ltb a' b')
  end.

(** [a < b] on the tuples [(Interval, str)]. *)
Definition Substitution_ltb (a b : Substitution) : bool :=
  Interval_ltb (fst a) (fst b)
  || (Interval_eqb (fst a) (fst b) && str_ltb (snd a) (snd b)).

(** [bisect.bisect_left(a, x)]. The search interval [hi - lo] shrinks at
    every turn, so [length a] turns are enough. *)
Fixpoint bisect_loop (turns : nat) (a : list Substitution) (x : Substitution)
    (lo hi : nat) : nat :=
  if (lo <? hi)%nat then
    match turns with
    | O => lo
    | S t =>
        let mid := ((lo + hi) / 2)%nat in
        match nth_error a mid with
        | Some y =>
            if Substitution_ltb y x then bisect_loop t a x (mid + 1)%nat hi
            else bisect_loop t a x lo mid
        | None => lo
        end
    end
  else lo.

Definition bisect_left (a : list Substitution) (x : Substitution) : nat :=
  bisect_loop (length a) a x 0%nat (length a).

(** [list.sort()] on substitutions. The order is total on the tuples, so
    the sorted list does not depend on the algorithm. *)
Fixpoint sort_insert (x : Substitution) (l : list Substitution) : list Substitution :=
  match l with
  | [] => [x]
  | y :: l' => if Substitution_ltb x y then x :: l else y :: sort_insert x l'
  end.

Definition py_sort (l : list Substitution) : list Substitution :=
  fold_right sort_insert [] l.

(** [l[a:b]] for list positions that are already non-negative. *)
Definition slice_nat {A} (l : list A) (a b : nat) : list A :=
  firstn (b - a) (skipn a l).

(** ** Text values ([fate/text.py]) *)

(** The interface [Text]: what [transform] asks of [self]. [str_value] is
    the [str] the object is, [getitem] is [self[interval]]. *)
Class Text (T : Type) := {
  str_value : T -> str;
  getitem : T -> Interval -> result str
}.

(** Modelled from the spec: [Selection.content] of [fate/selection.py] is
    not among the sources. The substrings of [text] for the intervals of
    the selection, in order. *)
Fixpoint Selection_content `{Text T} (sel : Selection) (text : T) : result (list str) :=
  match sel with
  | [] => Ok []
  | interval :: rest =>
      s ← getitem text interval;
      ss ← Selection_content rest text;
      Ok (s :: ss)
  end.

(** Modelled from the spec: [Selection.partition] of [fate/selection.py]
    is not among the sources. The runs that cover [[0, length)] once,
    unselected and selected in turn, empty runs included. *)
Fixpoint partition_from (pos : Z) (sel : Selection) (length : Z)
    : list (bool * Interval) :=
  match sel with
  | [] => [(false, (pos, length))]
  | (b, e) :: rest => (false, (pos, b)) :: (true, (b, e)) :: partition_from e rest length
  end.

Definition Selection_partition `{Text T} (sel : Selection) (text : T)
    : list (bool * Interval) :=
  partition_from 0 sel (len (str_value text)).

(** Modelled from the spec: the class of transformations is not among the
    sources. [validate] tells whether the caller-supplied hook accepts the
    text; a hook that rejects it fails with the error of a stale
    transformation. *)
Record Transformation := {
  tr_selection : Selection;
  original_content : list str;
  replacements : list str;
  validate : str -> bool
}.

Definition StaleTransformation : exn :=
  AssertionError "Transformation applied on wrong text".

Definition OutOfRange : exn := IndexError.

Definition StringText := str.

Definition StringText_getitem_int (self : StringText) (item : Z) : result str :=
  c ← py_index self item; Ok [c].

Definition StringText_getitem_interval (self : StringText) (item : Interval) : str :=
  let '(beg, end_) := item in py_slice self beg end_.

#[global] Instance StringText_Text : Text StringText := {|
  str_value := fun self => self;
  getitem := fun self item => Ok (StringText_getitem_interval self item)
|}.

(** [[(in_selection, self[interval]) for in_selection, interval in partition]] *)
Fixpoint partition_content `{Text T} (self : T) (partition : list (bool * Interval))
    : result (list (bool * str)) :=
  match partition with
  | [] => Ok []
  | (in_selection, interval) :: rest =>
      s ← getitem self interval;
      ps ← partition_content self rest;
      Ok ((in_selection, s) :: ps)
  end.

(** [for in_selection, string in partition_content: ...] *)
Fixpoint replace_runs (replacements : list str) (runs : list (bool * str))
    (count : Z) : result (list str) :=
  match runs with
  | [] => Ok []
  | (in_selection, string) :: rest =>
      if in_selection : bool then
        r ← py_index replacements count;
        rs ← replace_runs replacements rest (count + 1);
        Ok (r :: rs)
      else
        rs ← replace_runs replacements rest count;
        Ok (string :: rs)
  end.

(** [StringText.transform], on any object [self] that is a text. *)
Definition StringText_transform `{Text T} (self : T) (transformation : Transformation)
    : result StringText :=
  let oldselection := tr_selection transformation in
  content ← Selection_content (tr_selection transformation) self;
  _ ← assert_ (bool_decide (content = original_content transformation))
        "Transformation applied on wrong text";
  _ ← (if validate transformation (str_value self) then Ok tt
       else Raise StaleTransformation);
  let partition := Selection_partition oldselection self in
  runs ← partition_content self partition;
  pieces ← replace_runs (replacements transformation) runs 0;
  Ok (concat pieces).

(** A windowed text: the [str] it is, and the attributes [origin], [beg]
    and [end]. *)
Record PartialText := {
  window : str;
  origin : str;
  beg : Z;
  end_ : Z
}.

(** A positional argument of a call. *)
Inductive argument :=
| arg_str (s : str)
| arg_int (i : Z).

(** [str(content)]. *)
Definition str_of (content : argument) : str :=
  match content with
  | arg_str s => s
  | arg_int i => py (pretty i)
  end.

(** [StringText.__new__(cls, content)], on the positional arguments that
    follow the class: [str.__new__(cls, content)] for one argument, a
    [TypeError] for any other number. [PartialText] inherits it. *)
Definition StringText_new (args : list argument) : result str :=
  match args with
  | [content] => Ok (str_of content)
  | _ => Raise TypeError
  end.

(** [object.__init__], on the arguments that follow [self]. It is what
    [StringText.__init__] names: neither [StringText] nor [Text] nor [str]
    defines [__init__]. On an object whose class overrides [__init__], as
    [PartialText] does, an argument beside [self] is a [TypeError]. *)
Definition object_init (args : list argument) : result unit :=
  match args with
  | [] => Ok tt
  | _ :: _ => Raise TypeError
  end.

(** [PartialText.__init__], on the object [self] that [__new__] made:
    [self] is the [str] of that object, which no statement of [__init__]
    changes. *)
Definition PartialText_init (self : str) (text : StringText) (beg end_ : Z)
    : result PartialText :=
  i ← mkInterval beg end_;
  _ ← object_init [arg_str (StringText_getitem_interval text i)];
  Ok {| window := self; origin := text; beg := beg; end_ := end_ |}.

(** The class call [PartialText(text, beg, end)]: [__new__] with the
    arguments of the call, then [__init__] with the same arguments on the
    new object. *)
Definition PartialText_call (text : StringText) (beg end_ : Z) : result PartialText :=
  self ← StringText_new [arg_str text; arg_int beg; arg_int end_];
  PartialText_init self text beg end_.

Definition PartialText_contains_int (self : PartialText) (item : Z) : bool :=
  (beg self <=? item) && (item <=? end_ self).

Definition PartialText_contains_interval (self : PartialText) (item : Interval) : bool :=
  (beg self <=? fst item) && (fst item <=? snd item) && (snd item <=? end_ self).

Definition PartialText_getitem_int (self : PartialText) (item : Z) : result str :=
  if negb (PartialText_contains_int self item) then Raise IndexError
  else StringText_getitem_int (window self) (item - beg self).

Definition PartialText_getitem_interval (self : PartialText) (item : Interval)
    (failfast : bool) : result str :=
  let '(b, e) := item in
  if failfast && negb (PartialText_contains_interval self item) then Raise IndexError
  else
    i ← mkInterval (Z.max 0 (b - beg self)) (Z.max 0 (e - beg self));
    Ok (StringText_getitem_interval (window self) i).

#[global] Instance PartialText_Text : Text PartialText := {|
  str_value := window;
  getitem := fun self item => PartialText_getitem_interval self item false
|}.

(** [for interval in transformation.selection: ...] *)
Fixpoint check_inside (self : PartialText) (sel : Selection) : result unit :=
  match sel with
  | [] => Ok tt
  | interval :: rest =>
      if negb (PartialText_contains_interval self interval) then Raise IndexError
      else check_inside self rest
  end.

(** [PartialText.transform]. The value is what the method returns: [None]
    when it ends without a [return] statement. *)
Definition PartialText_transform (self : PartialText) (transformation : Transformation)
    : result (option StringText) :=
  _ ← check_inside self (tr_selection transformation);
  _ ← StringText_transform self transformation;
  Ok None.

(** ** The collaborators of a view *)

(** The concealment collaborator. [generate_local_substitutions obeg n]
    is the content of [conceal.local_substitutions] after the call
    [conceal.generate_local_substitutions(obeg, n)]. *)
Record Conceal := {
  generate_local_substitutions : Z -> Z -> list Substitution;
  global_substitutions : list Substitution
}.

Record Document := {
  doc_text : str;
  doc_selection : Selection;
  doc_highlighting : gmap Z string;
  doc_conceal : Conceal
}.

(** The functions imported from [fate/navigation.py], which is not among
    the sources: the view engine is written over any implementation. *)
Class Navigation := {
  count_wrapped_lines : str -> Z -> Z;
  move_n_wrapped_lines_down : str -> Z -> Z -> Z -> Z;
  next_beg_of_wrapped_line : str -> Z -> Z -> Z
}.

(** Modelled from the spec: [Selection.add] of [fate/selection.py] is not
    among the sources. Adding an interval keeps the intervals ordered and
    merges the ones that overlap or touch it. *)
Fixpoint Selection_add (sel : Selection) (i : Interval) : Selection :=
  match sel with
  | [] => [i]
  | j :: rest =>
      if snd i <? fst j then i :: sel
      else if snd j <? fst i then j :: Selection_add rest i
      else Selection_add rest (Z.min (fst i) (fst j), Z.max (snd i) (snd j))
  end.

(** Modelled from the spec: the decorator [post] of [fate/contract.py] is
    not among the sources. The post-condition is checked on the value the
    decorated function returns. *)
Definition post {A} (postcondition : A -> result unit) (r : result A) : result A :=
  a ← r; _ ← postcondition a; Ok a.

(** ** Single-pass substitution merge *)

Record scan := {
  vtext_builder : list str;
  vpos : Z;
  opos : Z;
  vpos_to_opos : list Z;
  opos_to_vpos : list Z;
  subst_index : nat
}.

(** The sorted list of relevant substitutions. *)
Definition relevant_substitutions (c : Conceal) (obeg o_sample_length : Z)
    : list Substitution :=
  let local_substitutions := generate_local_substitutions c obeg o_sample_length in
  let first_global_subst :=
    bisect_left (global_substitutions c) ((obeg, obeg), []) in
  let last_global_subst :=
    bisect_left (global_substitutions c)
      ((obeg + o_sample_length, obeg + o_sample_length), []) in
  py_sort (local_substitutions
           ++ slice_nat (global_substitutions c) first_global_subst last_global_subst).

(** The five statements that add [olength] characters of non-concealed
    text. *)
Definition add_text (otext : str) (olength : Z) (st : scan) : scan :=
  {| vtext_builder :=
       vtext_builder st ++ [py_slice otext (opos st) (opos st + olength)];
     vpos := vpos st + olength;
     opos := opos st + olength;
     vpos_to_opos := vpos_to_opos st ++ py_range (opos st) (opos st + olength);
     opos_to_vpos := opos_to_vpos st ++ py_range (vpos st) (vpos st + olength);
     subst_index := subst_index st |}.

(** The statements that add the replacement of one substitution. *)
Definition add_concealed (sbeg send : Z) (replacement : str) (st : scan) : scan :=
  let vlength := len replacement in
  let olength := send - sbeg in
  {| vtext_builder := vtext_builder st ++ [replacement];
     vpos := vpos st + vlength;
     opos := opos st + olength;
     vpos_to_opos := vpos_to_opos st ++ py_repeat vlength (opos st);
     opos_to_vpos := opos_to_vpos st ++ py_repeat olength (vpos st);
     subst_index := S (subst_index st) |}.

(** [while opos < obeg + o_sample_length: ...] *)
Fixpoint scan_loop (fuel : nat) (otext : str) (obeg o_sample_length : Z)
    (substitutions : list Substitution) (st : scan) : fueled scan :=
  if opos st <? obeg + o_sample_length then
    match fuel with
    | O => OutOfFuel
    | S fuel' =>
        match nth_error substitutions (subst_index st) with
        | None =>
            let olength := Z.min (o_sample_length - (opos st - obeg))
                                 (len otext - (opos st - obeg)) in
            mret (add_text otext olength st)
        | Some ((sbeg, send), replacement) =>
            if sbeg >? opos st then
              let olength := Z.min (sbeg - opos st) (o_sample_length - vpos st) in
              scan_loop fuel' otext obeg o_sample_length substitutions
                (add_text otext olength st)
            else
              scan_loop fuel' otext obeg o_sample_length substitutions
                (add_concealed sbeg send replacement st)
        end
    end
  else mret st.

Definition scan_start (obeg : Z) : scan :=
  {| vtext_builder := []; vpos := 0; opos := obeg;
     vpos_to_opos := []; opos_to_vpos := []; subst_index := 0%nat |}.

Definition _compute_text_from_orig_interval (fuel : nat) (doc : Document)
    (obeg o_sample_length : Z) : fueled (str * list Z * list Z) :=
  let substitutions := relevant_substitutions (doc_conceal doc) obeg o_sample_length in
  st ← scan_loop fuel (doc_text doc) obeg o_sample_length substitutions (scan_start obeg);
  let vtext := concat (vtext_builder st) in
  mret (vtext, opos_to_vpos st ++ [len vtext], vpos_to_opos st ++ [o_sample_length]).

(** ** Views *)

Record TextView := {
  doc : Document;
  width : Z;
  height : option Z;
  offset : Z;
  text : str;
  selection : Selection;
  highlighting : list string;
  viewpos_to_origpos : list Z;
  origpos_to_viewpos : list Z
}.

Section Views.
Context {nav : Navigation}.

(** [while count_wrapped_lines(vtext, width) < height and
    obeg + o_sample_length < len(otext): ...]. The loop state is the
    sample length with the result of the last probe. *)
Fixpoint sample_loop (turns fuel : nat) (d : Document) (width height obeg : Z)
    (o_sample_length : Z) (probe : str * list Z * list Z)
    : fueled (Z * (str * list Z * list Z)) :=
  if (count_wrapped_lines (fst (fst probe)) width <? height)
     && (obeg + o_sample_length <? len (doc_text d)) then
    match turns with
    | O => OutOfFuel
    | S turns' =>
        let o_sample_length := o_sample_length * 2 in
        probe ← _compute_text_from_orig_interval fuel d obeg o_sample_length;
        sample_loop turns' fuel d width height obeg o_sample_length probe
    end
  else mret (o_sample_length, probe).

(** The snapped length of the view text. *)
Definition snap (vtext : str) (width height : Z) : Z :=
  let beg_last_line := move_n_wrapped_lines_down vtext width 0 (height - 1) in
  let required_length := next_beg_of_wrapped_line vtext width beg_last_line in
  if required_length =? beg_last_line then len vtext else required_length.

(** What is done with the last probe once the sample is long enough. *)
Definition snap_view (width height : Z) (o_sample_length : Z)
    (probe : str * list Z * list Z) : result (str * list Z * list Z) :=
  let '(vtext, opos_to_vpos, vpos_to_opos) := probe in
  let required_length := snap vtext width height in
  _ ← assert_ (required_length >? len vtext / 2) "";
  let opos_to_vpos := opos_to_vpos ++ [len vtext] in
  let vpos_to_opos := vpos_to_opos ++ [o_sample_length] in
  let text := py_prefix vtext required_length in
  let origpos_to_viewpos := py_prefix opos_to_vpos (required_length + 1) in
  let viewpos_to_origpos := vpos_to_opos in
  _ ← assert_ (len text =? required_length)
        (pretty (len text) +:+ " != " +:+ pretty required_length);
  _ ← assert_ (len origpos_to_viewpos =? required_length + 1) "";
  Ok (text, origpos_to_viewpos, viewpos_to_origpos).

(** The arguments are the four attributes of [self] the method reads:
    [self.doc], [self.width], [self.height] and [self.offset] (as [obeg]). *)
Definition _compute_text_from_view_interval (fuel : nat) (d : Document)
    (width height obeg : Z) : fueled (str * list Z * list Z) :=
  let otext := doc_text d in
  if len otext - obeg =? 0 then mret ([], [0], [0])
  else if len otext - obeg <? 0 then Done (Raise ValueError)
  else
    let o_sample_length := 1 in
    probe ← _compute_text_from_orig_interval fuel d obeg o_sample_length;
    first ← Done (py_index (snd (fst probe)) 0);
    _ ← Done (assert_ (first >=? 0) "");
    '(o_sample_length, probe) ← sample_loop fuel fuel d width height obeg o_sample_length probe;
    Done (snap_view width height o_sample_length probe).

(** [for i in range(len(self.text)): ...], on the positions still to visit. *)
Fixpoint highlight_loop (self : TextView) (positions : list Z) : result (list string) :=
  match positions with
  | [] => Ok []
  | i :: positions' =>
      opos ← py_index (viewpos_to_origpos self) i;
      let tag := match doc_highlighting (doc self) !! opos with
                 | Some tag => tag
                 | None => EmptyString
                 end in
      highlightingview ← highlight_loop self positions';
      Ok (tag :: highlightingview)
  end.

Definition _compute_highlighting (self : TextView) : result (list string) :=
  highlight_loop self (py_range 0 (len (text self))).

Fixpoint _compute_selectionview_post (self : TextView) (selectionview : Selection)
    : result unit :=
  match selectionview with
  | [] => Ok tt
  | (vbeg, vend) :: rest =>
      _ ← assert_ ((0 <=? vbeg) && (vbeg <=? vend) && (vend <=? len (text self))) "";
      _compute_selectionview_post self rest
  end.

(** The body of the loop over [self.doc.selection]. *)
Definition project_interval (self : TextView) (o_viewbeg o_viewend : Z)
    (selectionview : Selection) (i : Interval) : result Selection :=
  let '(beg, end_) := i in
  if ((beg <? o_viewend) && (o_viewbeg <? end_))
     || ((beg =? end_) && (end_ =? o_viewbeg))
     || ((beg =? end_) && (end_ =? o_viewend)) then
    let beg := Z.max beg o_viewbeg in
    let end_ := Z.min o_viewend end_ in
    _ ← assert_ (beg <=? end_) "";
    vbeg ← py_index (origpos_to_viewpos self) (beg - offset self);
    vend ← py_index (origpos_to_viewpos self) (end_ - offset self);
    v ← mkInterval vbeg vend;
    Ok (Selection_add selectionview v)
  else Ok selectionview.

(** [for beg, end in self.doc.selection: ...] *)
Fixpoint selection_loop (self : TextView) (o_viewbeg o_viewend : Z)
    (todo : Selection) (selectionview : Selection) : result Selection :=
  match todo with
  | [] => Ok selectionview
  | i :: todo' =>
      selectionview ← project_interval self o_viewbeg o_viewend selectionview i;
      selection_loop self o_viewbeg o_viewend todo' selectionview
  end.

Definition _compute_selection (self : TextView) : result Selection :=
  post (_compute_selectionview_post self)
    (let opos_to_vpos := origpos_to_viewpos self in
     _ ← assert_ (len opos_to_vpos =? len (text self) + 1) "";
     o_viewbeg ← py_index (viewpos_to_origpos self) 0;
     o_viewend ← py_index (viewpos_to_origpos self) (-1);
     selection_loop self o_viewbeg o_viewend (doc_selection (doc self)) []).

(** The last three assignments of both constructors. *)
Definition finish_view (d : Document) (width : Z) (height : option Z) (offset : Z)
    (r : str * list Z * list Z) : result TextView :=
  let '(text, origpos_to_viewpos, viewpos_to_origpos) := r in
  let self :=
    {| doc := d; width := width; height := height; offset := offset;
       text := text; selection := []; highlighting := [];
       viewpos_to_origpos := viewpos_to_origpos;
       origpos_to_viewpos := origpos_to_viewpos |} in
  sel ← _compute_selection self;
  let self :=
    {| doc := d; width := width; height := height; offset := offset;
       text := text; selection := sel; highlighting := [];
       viewpos_to_origpos := viewpos_to_origpos;
       origpos_to_viewpos := origpos_to_viewpos |} in
  hl ← _compute_highlighting self;
  Ok {| doc := d; width := width; height := height; offset := offset;
        text := text; selection := sel; highlighting := hl;
        viewpos_to_origpos := viewpos_to_origpos;
        origpos_to_viewpos := origpos_to_viewpos |}.

Definition for_screen (fuel : nat) (d : Document) (width height offset : Z)
    : fueled TextView :=
  if width <=? 0 then Done (Raise ValueError)
  else if height <=? 0 then Done (Raise ValueError)
  else if (offset <? 0) || (offset >? len (doc_text d)) then Done (Raise ValueError)
  else
    r ← _compute_text_from_view_interval fuel d width height offset;
    Done (finish_view d width (Some height) offset r).

Definition for_entire_text (fuel : nat) (d : Document) (width : Z) : fueled TextView :=
  if width <=? 0 then Done (Raise ValueError)
  else
    r ← _compute_text_from_orig_interval fuel d 0 (len (doc_text d));
    Done (finish_view d width None 0 r).

End Views.

(** ** A model of the navigation functions *)

Module WrapModel.

Definition is_eol (c : ascii) : bool := (nat_of_ascii c =? 10)%nat.

(** [text.splitlines()], with the newline character as the only line
    boundary. *)
Fixpoint splitlines_from (line : str) (rest : str) : list str :=
  match rest with
  | [] => match line with [] => [] | _ :: _ => [rev line] end
  | c :: rest' =>
      if is_eol c then rev line :: splitlines_from [] rest'
      else splitlines_from (c :: line) rest'
  end.

Definition splitlines (text : str) : list str := splitlines_from [] text.

(** [ceil(a / b)] for [b > 0]. *)
Definition ceil_div (a b : Z) : Z := (a + b - 1) / b.

(** Modelled from the spec: [count_wrapped_lines] of [fate/navigation.py]
    is not among the sources. The number of display rows is the one
    [TextView.text_as_lines] asserts: every line of [splitlines]
    contributes [ceil(len(line) / width)] rows. *)
Definition count (text : str) (width : Z) : Z :=
  fold_right Z.add 0 (map (fun line => ceil_div (len line) width) (splitlines text)).

(** Position of the first newline of [s], if any. *)
Fixpoint find_eol (s : str) : option Z :=
  match s with
  | [] => None
  | c :: s' => if is_eol c then Some 0 else Z.succ <$> find_eol s'
  end.

(** Modelled from the spec: [next_beg_of_wrapped_line] of
    [fate/navigation.py] is not among the sources. The begin of the next
    wrapped line after the row that starts at [start]: [width] columns
    further when the row is full and the line goes on, just after the
    newline when the row ends with one, and [start] itself when the text
    ends in this row without a newline. *)
Definition next_beg (text : str) (width start : Z) : Z :=
  let rest := py_slice text start (len text) in
  let eol := find_eol rest in
  let run := match eol with Some k => k | None => len rest end in
  if run >? width then start + width
  else match eol with
       | Some k => start + k + 1
       | None => start
       end.

(** Modelled from the spec: [move_n_wrapped_lines_down] of
    [fate/navigation.py] is not among the sources. Advances over [n]
    wrapped-line boundaries from [start], stopping at the begin of the
    last wrapped line when there are fewer. *)
Fixpoint move_down (n : nat) (text : str) (width start : Z) : Z :=
  match n with
  | O => start
  | S n' =>
      let next := next_beg text width start in
      if next =? start then start else move_down n' text width next
  end.

Definition navigation : Navigation := {|
  count_wrapped_lines := count;
  move_n_wrapped_lines_down := fun text width start n =>
    move_down (Z.to_nat n) text width start;
  next_beg_of_wrapped_line := next_beg
|}.

End WrapModel.

(** ** Definitions the statements below use *)

(** The tag of an original position: the entry of the sparse highlighting
    table, the empty string without one. *)
Definition tag_at (d : Document) (opos : Z) : string :=
  match doc_highlighting d !! opos with
  | Some tag => tag
  | None => EmptyString
  end.

(** A windowed text as the class describes it: the [str] of the object
    is the text of [origin] over [[beg, end)]. Neither the class call nor
    [__init__] leaves such an object, both end in a [TypeError]; it is
    the state after [PartialText.__new__(PartialText, origin[beg:end])]
    and the assignment of the three attributes. *)
Definition windowed (self : PartialText) : Prop :=
  0 <= beg self <= end_ self
  /\ window self = py_slice (origin self) (beg self) (end_ self).

(** Substitutions the scan over [[obeg, obeg + n)] merges one after the
    other without cutting anything short. With the scan at [opos] and
    [vpos], each substitution begins at or after [opos], ends inside the
    range, and the non-concealed text before it still fits below the
    bound [n] that the scan puts on the view position. *)
Fixpoint fits (obeg n : Z) (opos vpos : Z) (substitutions : list Substitution) : bool :=
  match substitutions with
  | [] => true
  | ((sbeg, send), replacement) :: rest =>
      (opos <=? sbeg) && (sbeg <=? send) && (send <=? obeg + n)
      && (vpos + (sbeg - opos) <=? n)
      && fits obeg n send (vpos + (sbeg - opos) + len replacement) rest
  end.

(** Substitutions that are ascending, disjoint and inside
    [[obeg, obeg + n)], none with a replacement longer than the interval
    it replaces. *)
Fixpoint shrinking (obeg n : Z) (opos : Z) (substitutions : list Substitution) : bool :=
  match substitutions with
  | [] => true
  | ((sbeg, send), replacement) :: rest =>
      (opos <=? sbeg) && (sbeg <=? send) && (send <=? obeg + n)
      && (len replacement <=? send - sbeg)
      && shrinking obeg n send rest
  end.

(** What holds of the scan state at the top of the loop while [rest] is
    still to be merged. *)
Record scan_inv (obeg n : Z) (substitutions : list Substitution)
    (st : scan) (rest : list Substitution) : Prop := {
  inv_rest : skipn (subst_index st) substitutions = rest;
  inv_opos : obeg <= opos st <= obeg + n;
  inv_o2v : len (opos_to_vpos st) = opos st - obeg;
  inv_v2o : len (vpos_to_opos st) = vpos st;
  inv_vtext : len (concat (vtext_builder st)) = vpos st;
  inv_vpos : 0 <= vpos st;
  inv_fits : fits obeg n (opos st) (vpos st) rest = true
}.

(** What holds of the scan state when the loop is left. *)
Definition scan_done (n : Z) (st : scan) : Prop :=
  len (opos_to_vpos st) = n
  /\ len (vpos_to_opos st) = len (concat (vtext_builder st)).

(** The screen view as the specification words it: the single pass over
    the final sample [[obeg, obeg + o_sample_length)], with the view text
    and both mappings restricted to the final length. *)
Definition spec_restricted_single_pass (fuel : nat) (d : Document)
    (obeg o_sample_length required_length : Z) : fueled (str * list Z * list Z) :=
  '(vtext, opos_to_vpos, vpos_to_opos) ←
    _compute_text_from_orig_interval fuel d obeg o_sample_length;
  mret (py_prefix vtext required_length,
        py_prefix opos_to_vpos (required_length + 1),
        py_prefix vpos_to_opos (required_length + 1)).

(** ** Example documents *)

Definition no_local_substitutions : Z -> Z -> list Substitution := fun _ _ => [].

Definition make_doc (text : str) (global : list Substitution) (sel : Selection)
    (hl : gmap Z string) : Document := {|
  doc_text := text;
  doc_selection := sel;
  doc_highlighting := hl;
  doc_conceal := {| generate_local_substitutions := no_local_substitutions;
                    global_substitutions := global |}
|}.

(** ["abcdef"] with ["bc"] shown as ["X"]. *)
Definition abcdef_doc : Document :=
  make_doc (py "abcdef") [((1, 3), py "X")] [] ∅.

(** ["abcdef"] with ["bc"] shown as ["XY"], two selected intervals and a
    tag on position 1. *)
Definition tagged_doc : Document :=
  make_doc (py "abcdef") [((1, 3), py "XY")] [(0, 0); (2, 4)] {[ 1 := "kw"%string ]}.

Definition tab : ascii := ascii_of_nat 9.

(** ["\ta\tb"], each tab shown as four spaces. *)
Definition tab_doc : Document :=
  make_doc [tab; "a"%char; tab; "b"%char]
    [((0, 1), py "    "); ((2, 3), py "    ")] [] ∅.

(** ["\t"], the tab shown as eight spaces. *)
Definition wide_tab_doc : Document :=
  make_doc [tab] [((0, 1), py "        ")] [] ∅.

(** ["a"], concealed altogether. *)
Definition concealed_doc : Document :=
  make_doc (py "a") [((0, 1), [])] [] ∅.

(** ["abcdefghij"] with ["bc"] shown as ["X"]. *)
Definition abcdefghij_doc : Document :=
  make_doc (py "abcdefghij") [((1, 3), py "X")] [] ∅.

(** ["ab\tc"], the tab shown as four spaces and selected. *)
Definition selected_tab_doc : Document :=
  make_doc ["a"%char; "b"%char; tab; "c"%char] [((2, 3), py "    ")] [(2, 3)] ∅.

(** The view of [selected_tab_doc] for a screen of width 2 and height 2
    at offset 0, as [for_screen] has it when it calls
    [_compute_selection]. *)
Definition selected_tab_view : TextView :=
  {| doc := selected_tab_doc; width := 2; height := Some 2; offset := 0;
     text := py "ab  "; selection := []; highlighting := [];
     viewpos_to_origpos := [0; 1; 2; 2; 2; 2; 3; 4; 4];
     origpos_to_viewpos := [0; 1; 2; 6; 7] |}.

(** The window [[0, 5)] of ["hello world"]. *)
Definition hello_window : PartialText :=
  {| window := py "hello"; origin := py "hello world"; beg := 0; end_ := 5 |}.

Definition upcase_hello : Transformation :=
  {| tr_selection := [(0, 5)];
     original_content := [py "hello"];
     replacements := [py "HELLO"];
     validate := fun _ => true |}.

(** The window [[5, 10)] of ["0123456789abc"]. *)
Definition digits_window : PartialText :=
  {| window := py "56789"; origin := py "0123456789abc"; beg := 5; end_ := 10 |}.

(** ** [Session.content] and the text a transformation builds *)

(** [Session.content]: [[self.text[beg:end] for beg, end in selection]]. *)
Definition Session_content (text : str) (selection : list Interval) : list str :=
  map (fun '(beg, end_) => py_slice text beg end_) selection.

(** Intervals that follow one another from [pos], none beginning before
    the end of the one before, the last ending at or before [stop]. *)
Fixpoint ascending_from (pos : Z) (sel : Selection) (stop : Z) : bool :=
  match sel with
  | [] => pos <=? stop
  | (b, e) :: rest => (pos <=? b) && (b <=? e) && ascending_from e rest stop
  end.

(** Intervals each of which begins where the one before ends, from [pos]
    to [stop]. *)
Fixpoint consecutive (pos : Z) (l : list Interval) (stop : Z) : bool :=
  match l with
  | [] => pos =? stop
  | (b, e) :: rest => (pos =? b) && (b <=? e) && consecutive e rest stop
  end.

(** The text with the intervals of a selection replaced, one after the
    other, by the strings of [repls]; [pos] is where the text not yet
    copied begins. *)
Fixpoint spliced (text : str) (pos : Z) (sel : Selection) (repls : list str) : str :=
  match sel with
  | [] => py_slice text pos (len text)
  | (b, e) :: sel' =>
      py_slice text pos b
      ++ match repls with
         | r :: repls' => r ++ spliced text e sel' repls'
         | [] => []
         end
  end.

(** ** The text and the mappings the single pass builds *)

(** The original text from [opos] to [stop] with every substitution
    interval replaced by its replacement. *)
Fixpoint concealed_text (otext : str) (opos stop : Z) (substitutions : list Substitution)
    : str :=
  match substitutions with
  | [] => py_slice otext opos stop
  | ((sbeg, send), replacement) :: rest =>
      py_slice otext opos sbeg ++ replacement ++ concealed_text otext send stop rest
  end.

(** Whether the original position [p] lies inside the interval of one of
    the substitutions. *)
Definition concealed_at (substitutions : list Substitution) (p : Z) : bool :=
  existsb (fun s : Substitution => (fst (fst s) <=? p) && (p <? snd (fst s)))
          substitutions.

(** Whether every substitution begins before [stop]. *)
Definition begin_before (stop : Z) (substitutions : list Substitution) : bool :=
  forallb (fun s : Substitution => fst (fst s) <? stop) substitutions.

(** A concealment collaborator that has no substitution for any range. *)
Definition no_substitutions (c : Conceal) : Prop :=
  global_substitutions c = []
  /\ forall obeg n, generate_local_substitutions c obeg n = [].

(** Intervals in order, no two of them touching, all inside [[lo, stop]]. *)
Fixpoint separated (lo : Z) (sel : Selection) (stop : Z) : bool :=
  match sel with
  | [] => true
  | (b, e) :: rest =>
      (lo <=? b) && (b <=? e) && (e <=? stop) && separated (e + 1) rest stop
  end.

(** Substitutions with well-formed intervals whose begins never
    decrease along the list. *)
Fixpoint begins_ascend (substitutions : list Substitution) : bool :=
  match substitutions with
  | [] => true
  | ((sbeg, send), _) :: rest =>
      (sbeg <=? send)
      && match rest with
         | [] => true
         | ((next, _), _) :: _ => sbeg <=? next
         end
      && begins_ascend rest
  end.

(** Whether a substitution begins inside [[obeg, obeg + n)]. *)
Definition begins_in (obeg n : Z) (s : Substitution) : bool :=
  (obeg <=? fst (fst s)) && (fst (fst s) <? obeg + n).

(** What the scan keeps of the order of the two mappings. *)
Definition ordered_mappings (obeg n : Z) (st : scan) : Prop :=
  StronglySorted Z.le (opos_to_vpos st)
  /\ Forall (fun v => 0 <= v <= vpos st) (opos_to_vpos st)
  /\ StronglySorted Z.le (vpos_to_opos st)
  /\ Forall (fun p => obeg <= p <= opos st /\ p < obeg + n) (vpos_to_opos st).

(** What the scan keeps for the original positions outside every
    substitution: the reverse mapping leads back from the view position
    the forward mapping gives, and the view text has there the character
    of the original text. *)
Definition copied_positions (otext : str) (obeg : Z) (subs : list Substitution)
    (st : scan) : Prop :=
  forall (k : nat) (v : Z),
    nth_error (opos_to_vpos st) k = Some v ->
    concealed_at subs (obeg + Z.of_nat k) = false ->
    0 <= v
    /\ nth_error (vpos_to_opos st) (Z.to_nat v) = Some (obeg + Z.of_nat k)
    /\ nth_error (concat (vtext_builder st)) (Z.to_nat v)
       = nth_error otext (Z.to_nat (obeg + Z.of_nat k)).

(** What the scan keeps for the substitutions already merged: all
    original positions of the interval go to one view position, the one
    where the replacement begins, and every view position of the
    replacement goes back to the begin of the interval. *)
Definition collapsed (obeg : Z) (subs : list Substitution) (st : scan) : Prop :=
  forall sbeg send r,
    In ((sbeg, send), r) (firstn (subst_index st) subs) ->
    exists v,
      0 <= v
      /\ (forall k : nat, sbeg <= obeg + Z.of_nat k < send ->
            nth_error (opos_to_vpos st) k = Some v)
      /\ (forall j : nat, (j < length r)%nat ->
            nth_error (vpos_to_opos st) (Z.to_nat v + j) = Some sbeg
            /\ nth_error (concat (vtext_builder st)) (Z.to_nat v + j) = nth_error r j).

(** ** [TextView.text_as_lines] *)

(** The line boundaries of [str.splitlines] among the characters below
    256: [\n], [\v], [\f], [\r], [\x1c], [\x1d], [\x1e] and [\x85]. *)
Definition is_line_boundary (c : ascii) : bool :=
  let n := nat_of_ascii c in
  ((10 <=? n) && (n <=? 13) || (28 <=? n) && (n <=? 30) || (n =? 133))%nat.

Definition is_cr (c : ascii) : bool := (nat_of_ascii c =? 13)%nat.

Definition is_lf (c : ascii) : bool := (nat_of_ascii c =? 10)%nat.

(** [text.splitlines()]: the lines without their boundaries. A carriage
    return with a newline after it is one boundary, and a boundary at the
    end of the text opens no further line. *)
Fixpoint py_splitlines_from (line : str) (rest : str) : list str :=
  match rest with
  | [] => match line with [] => [] | _ :: _ => [rev line] end
  | c :: rest' =>
      if is_line_boundary c then
        rev line
        :: match rest' with
           | c' :: rest'' =>
               if is_cr c && is_lf c' then py_splitlines_from [] rest''
               else py_splitlines_from [] rest'
           | [] => py_splitlines_from [] rest'
           end
      else py_splitlines_from (c :: line) rest'
  end.

Definition py_splitlines (text : str) : list str := py_splitlines_from [] text.

(** [ceil(a / b)] for [b <> 0]: the quotient is a float, exact as long as
    [a] is below [2 ** 53]. *)
Definition py_ceil_div (a b : Z) : Z := - ((- a) / b).

(** [[line[width * i: width * (i + 1)] for i in range(ceil(len(line) / width))]] *)
Definition wrap_line (width : Z) (line : str) : list str :=
  map (fun i => py_slice line (width * i) (width * (i + 1)))
      (py_range 0 (py_ceil_div (len line) width)).

(** How a call of [text_as_lines] ends. *)
Inductive lines_outcome :=
| Lines (rows : list str)
| Lines_AssertionError
| Lines_ZeroDivisionError.

Section Lines.
Context {nav : Navigation}.

Definition text_as_lines (self : TextView) : lines_outcome :=
  let lines := py_splitlines (text self) in
  match lines with
  | _ :: _ =>
      if width self =? 0 then Lines_ZeroDivisionError
      else
        let rows := concat (map (wrap_line (width self)) lines) in
        if len rows =? count_wrapped_lines (text self) (width self) then Lines rows
        else Lines_AssertionError
  | [] =>
      if 0 =? count_wrapped_lines (text self) (width self) then Lines []
      else Lines_AssertionError
  end.

End Lines.

(** ["abcdefg\nhi"] on a screen three columns wide. *)
Definition two_lines_view : TextView :=
  {| doc := make_doc (py "abcdefg" ++ [ascii_of_nat 10] ++ py "hi") [] [] ∅;
     width := 3; height := None; offset := 0;
     text := py "abcdefg" ++ [ascii_of_nat 10] ++ py "hi";
     selection := []; highlighting := repeat EmptyString 10;
     viewpos_to_origpos := py_range 0 11;
     origpos_to_viewpos := py_range 0 11 |}.

(** * Properties *)

(** ** Lists and slices *)

Section Slices.
Context {A : Type}.
Implicit Types l : list A.

Lemma firstn_beyond l (k : nat) :
  firstn k l = firstn (Nat.min k (length l)) l.
Proof.
  destruct (Nat.le_ge_cases k (length l)) as [H|H].
  - now rewrite Nat.min_l.
  - rewrite Nat.min_r by exact H. now rewrite !firstn_all2 by lia.
Qed.

Lemma py_slice_nonneg l (a b : Z) :
  0 <= a -> 0 <= b -> py_slice l a b = slice_nat l (Z.to_nat a) (Z.to_nat b).
Proof.
  intros Ha Hb. unfold py_slice, slice_nat, slice_index, len.
  destruct (Z.ltb_spec a 0) as [?|_]; [lia|].
  destruct (Z.ltb_spec b 0) as [?|_]; [lia|].
  destruct (Z_le_gt_dec (Z.of_nat (length l)) a) as [Hge|Hlt].
  - rewrite !skipn_all2 by lia. now rewrite !firstn_nil.
  - rewrite (Z.min_l a) by lia.
    rewrite (firstn_beyond (skipn (Z.to_nat a) l) (Z.to_nat b - Z.to_nat a)).
    rewrite length_skipn. f_equal. lia.
Qed.

Lemma slice_nat_length l (i j : nat) :
  length (slice_nat l i j) = Nat.min (j - i) (length l - i).
Proof. unfold slice_nat. now rewrite length_firstn, length_skipn. Qed.

Lemma slice_nat_slice_nat l (i j a c : nat) :
  slice_nat (slice_nat l i j) a c = slice_nat l (i + a) (Nat.min (i + c) j).
Proof.
  unfold slice_nat.
  rewrite skipn_firstn_comm, firstn_firstn, skipn_skipn.
  rewrite (Nat.add_comm a i). f_equal. lia.
Qed.

Lemma py_slice_length_le l (a b : Z) :
  a <= b -> len (py_slice l a b) <= b - a.
Proof.
  intros Hab. unfold py_slice, slice_index, len.
  rewrite length_firstn, length_skipn.
  destruct (Z.ltb_spec a 0), (Z.ltb_spec b 0); lia.
Qed.

Lemma len_py_slice_inside l (a k : Z) :
  0 <= a -> 0 <= k -> a + k <= len l -> len (py_slice l a (a + k)) = k.
Proof.
  intros Ha Hk Hin. rewrite py_slice_nonneg by lia.
  unfold len in *. rewrite slice_nat_length. lia.
Qed.

Lemma py_prefix_pos l (b : Z) :
  0 <= b -> py_prefix l b = firstn (Z.to_nat b) l.
Proof.
  intros Hb. unfold py_prefix. rewrite py_slice_nonneg by lia.
  unfold slice_nat. simpl. now rewrite Nat.sub_0_r.
Qed.

Lemma firstn_prefix_app l (m : list A) (k : nat) :
  firstn k l `prefix_of` firstn k (l ++ m).
Proof. rewrite firstn_app. now exists (firstn (k - length l) m). Qed.

Lemma firstn_prefix l (k : nat) : firstn k l `prefix_of` l.
Proof. exists (skipn k l). symmetry. apply firstn_skipn. Qed.

Lemma len_app l (k : list A) : len (l ++ k) = len l + len k.
Proof. unfold len. rewrite length_app. lia. Qed.

Lemma len_nonneg l : 0 <= len l.
Proof. unfold len. lia. Qed.

Lemma len_py_repeat (k : Z) (x : A) : len (py_repeat k x) = Z.max 0 k.
Proof. unfold len, py_repeat. rewrite repeat_length. lia. Qed.

Lemma py_index_nth l (i : nat) (x : A) :
  nth_error l i = Some x -> py_index l (Z.of_nat i) = Ok x.
Proof.
  intros H. unfold py_index.
  destruct (Z.ltb_spec (Z.of_nat i) 0); [lia|].
  destruct (Z.ltb_spec (Z.of_nat i) 0); [lia|].
  now rewrite Nat2Z.id, H.
Qed.

Lemma py_index_sentinel l (x : A) : py_index (l ++ [x]) (len l) = Ok x.
Proof.
  unfold len. apply py_index_nth.
  rewrite nth_error_app2 by lia. now rewrite Nat.sub_diag.
Qed.

Lemma py_index_Raise l (i : Z) (e : exn) : py_index l i = Raise e -> e = IndexError.
Proof.
  unfold py_index. destruct (_ <? 0); [congruence|].
  destruct (nth_error _ _); congruence.
Qed.

Lemma skipn_nth_error l (i : nat) : nth_error l i = hd_error (skipn i l).
Proof. revert i. induction l as [|x l IH]; intros [|i]; simpl; auto. Qed.

Lemma skipn_S_tail l (i : nat) (x : A) (rest : list A) :
  skipn i l = x :: rest -> skipn (S i) l = rest.
Proof.
  revert i. induction l as [|y l IH]; intros [|i]; simpl; try discriminate.
  - now intros [= _ ->].
  - intros H. apply IH in H. exact H.
Qed.

End Slices.

Lemma len_py_range (a b : Z) : len (py_range a b) = Z.max 0 (b - a).
Proof. unfold len, py_range. rewrite length_map, length_seq. lia. Qed.

Lemma py_range_0 (n : nat) : py_range 0 (Z.of_nat n) = map Z.of_nat (seq 0 n).
Proof.
  unfold py_range. rewrite Z.sub_0_r, Nat2Z.id. apply map_ext. intros; lia.
Qed.

Lemma len_concat_snoc (ls : list str) (l : str) :
  len (concat (ls ++ [l])) = len (concat ls) + len l.
Proof. rewrite concat_app. simpl. rewrite app_nil_r. apply len_app. Qed.

Lemma Forall2_nth_error_left {A B} (P : A -> B -> Prop) (l : list A) (k : list B) :
  Forall2 P l k -> forall i x, nth_error l i = Some x ->
  exists y, nth_error k i = Some y /\ P x y.
Proof.
  induction 1 as [|x0 y0 l k Hxy _ IH]; intros [|i] x; simpl; try discriminate.
  - intros [= <-]. eauto.
  - apply IH.
Qed.

Lemma Forall2_same_length {A B} (P : A -> B -> Prop) (l : list A) (k : list B) :
  Forall2 P l k -> length l = length k.
Proof. induction 1; simpl; congruence. Qed.

Lemma bisect_loop_eq (t : nat) (a : list Substitution) (x : Substitution) (lo hi : nat) :
  bisect_loop (S t) a x lo hi =
  if (lo <? hi)%nat then
    match nth_error a ((lo + hi) / 2)%nat with
    | Some y =>
        if Substitution_ltb y x then bisect_loop t a x ((lo + hi) / 2 + 1)%nat hi
        else bisect_loop t a x lo ((lo + hi) / 2)%nat
    | None => lo
    end
  else lo.
Proof. reflexivity. Qed.

(** The binary search never uses up its turns: any number of turns from
    [hi - lo] on gives the same position. *)
Lemma bisect_loop_turns (a : list Substitution) (x : Substitution) :
  forall t1 t2 lo hi,
    (hi - lo <= t1)%nat -> (hi - lo <= t2)%nat ->
    bisect_loop t1 a x lo hi = bisect_loop t2 a x lo hi.
Proof.
  induction t1 as [|t1 IH]; intros t2 lo hi H1 H2.
  - destruct t2; [reflexivity|]. rewrite bisect_loop_eq. simpl.
    destruct (Nat.ltb_spec lo hi); [lia | reflexivity].
  - rewrite bisect_loop_eq.
    destruct (Nat.ltb_spec lo hi) as [Hlt|Hge].
    + destruct t2 as [|t2]; [lia|]. rewrite bisect_loop_eq.
      destruct (Nat.ltb_spec lo hi); [|lia].
      assert (Hmid : (lo <= (lo + hi) / 2 < hi)%nat).
      { split.
        - apply Nat.div_le_lower_bound; lia.
        - apply Nat.Div0.div_lt_upper_bound; lia. }
      destruct (nth_error a ((lo + hi) / 2)) as [y|]; [|reflexivity].
      destruct (Substitution_ltb y x); apply IH; lia.
    + destruct t2; [|rewrite bisect_loop_eq]; simpl;
        destruct (Nat.ltb_spec lo hi); try reflexivity; lia.
Qed.

(** ** Results *)

Lemma bind_Ok {A B} (r : result A) (k : A -> result B) (b : B) :
  (r ≫= k) = Ok b -> exists a, r = Ok a /\ k a = Ok b.
Proof. destruct r as [a|e]; simpl; [eauto | discriminate]. Qed.

Lemma fbind_Done_Ok {A B} (c : fueled A) (k : A -> fueled B) (b : B) :
  (c ≫= k) = Done (Ok b) -> exists a, c = Done (Ok a) /\ k a = Done (Ok b).
Proof. destruct c as [[a|e]|]; simpl; [eauto | discriminate | discriminate]. Qed.

Lemma assert_Ok (b : bool) (msg : string) (u : unit) : assert_ b msg = Ok u -> b = true.
Proof. destruct b; [reflexivity | discriminate]. Qed.

(** ** Transformations of a text *)

Lemma Selection_content_StringText (sel : Selection) (self : StringText) :
  Selection_content sel self = Ok (map (StringText_getitem_interval self) sel).
Proof.
  induction sel as [|i sel IH]; simpl; [reflexivity|].
  rewrite IH. reflexivity.
Qed.

Lemma partition_content_StringText (self : StringText) (p : list (bool * Interval)) :
  exists runs, partition_content self p = Ok runs.
Proof.
  induction p as [|[b i] p [runs IH]]; simpl; [eauto|].
  rewrite IH. simpl. eauto.
Qed.

Lemma replace_runs_Raise (rs : list str) (runs : list (bool * str)) (count : Z) (e : exn) :
  replace_runs rs runs count = Raise e -> e = IndexError.
Proof.
  revert count. induction runs as [|[b s] runs IH]; intros count; simpl; [discriminate|].
  destruct b.
  - destruct (py_index rs count) as [r|e'] eqn:Hr; simpl.
    + destruct (replace_runs rs runs (count + 1)) eqn:Hrest; simpl; [discriminate|].
      intros [= <-]. eauto.
    + intros [= <-]. eauto using py_index_Raise.
  - destruct (replace_runs rs runs count) eqn:Hrest; simpl; [discriminate|].
    intros [= <-]. eauto.
Qed.

(** C6. [StringText.transform] fails with the error of a stale
    transformation exactly when the content the selection addresses in
    the text differs from the recorded original content, or the
    validation hook rejects the text. The text is a [str] value, which
    [transform] only reads: a failed call leaves it as it was. *)
Theorem transform_stale_iff (self : StringText) (transformation : Transformation) :
  StringText_transform self transformation = Raise StaleTransformation
  <-> (map (StringText_getitem_interval self) (tr_selection transformation)
         <> original_content transformation
       \/ validate transformation self = false).
Proof.
  unfold StringText_transform.
  rewrite Selection_content_StringText. simpl.
  destruct (decide (map (StringText_getitem_interval self) (tr_selection transformation)
                    = original_content transformation)) as [Heq|Hne].
  - rewrite bool_decide_eq_true_2 by exact Heq. simpl.
    destruct (validate transformation self) eqn:Hv; simpl.
    + split; [|intros [?|?]; [contradiction|discriminate]].
      destruct (partition_content_StringText self
                  (Selection_partition (tr_selection transformation) self)) as [runs ->].
      simpl.
      destruct (replace_runs _ runs 0) eqn:Hr; simpl; [discriminate|].
      intros [= ->]. apply replace_runs_Raise in Hr. discriminate.
    + split; auto.
  - rewrite bool_decide_eq_false_2 by exact Hne. simpl. split; auto.
Qed.

(** ** Windowed texts *)

(** The class call hands [__new__] three arguments where it takes one:
    no object is made, whatever the arguments. *)
Lemma PartialText_call_TypeError (text : StringText) (wbeg wend : Z) :
  PartialText_call text wbeg wend = Raise TypeError.
Proof. reflexivity. Qed.

(** [__init__] on an object made otherwise fails as well: in the
    constructor of [Interval] when the bounds are not in order, in
    [object.__init__] when they are. *)
Lemma PartialText_init_raises (self : str) (text : StringText) (wbeg wend : Z) :
  PartialText_init self text wbeg wend
  = Raise (if wbeg <=? wend then TypeError else AssertionError "").
Proof.
  unfold PartialText_init, mkInterval, assert_.
  destruct (wbeg <=? wend); reflexivity.
Qed.

Lemma windowed_state (self : PartialText) :
  windowed self ->
  0 <= beg self <= end_ self
  /\ self = {| window := py_slice (origin self) (beg self) (end_ self);
               origin := origin self; beg := beg self; end_ := end_ self |}.
Proof.
  destruct self as [w o b e]. intros [Hb Hw]. simpl in *. subst w. now split.
Qed.

Lemma getitem_int_outside (self : PartialText) (item : Z) :
  len (window self) <= end_ self - beg self ->
  item < beg self \/ end_ self <= item ->
  PartialText_getitem_int self item = Raise OutOfRange.
Proof.
  intros Hlen Hout. unfold PartialText_getitem_int, PartialText_contains_int.
  destruct (Z.leb_spec (beg self) item); simpl; [|reflexivity].
  destruct (Z.leb_spec item (end_ self)); simpl; [|reflexivity].
  unfold StringText_getitem_int, py_index.
  destruct (Z.ltb_spec (item - beg self) 0); [lia|].
  destruct (Z.ltb_spec (item - beg self) 0); [lia|].
  destruct (nth_error (window self) (Z.to_nat (item - beg self))) eqn:Hn; [|reflexivity].
  assert (Hs : nth_error (window self) (Z.to_nat (item - beg self)) <> None) by congruence.
  apply nth_error_Some in Hs. unfold len in Hlen. lia.
Qed.

Lemma getitem_interval_clamps (text : StringText) (wbeg wend b e : Z) :
  0 <= wbeg <= wend -> 0 <= b <= e ->
  PartialText_getitem_interval
    {| window := py_slice text wbeg wend; origin := text; beg := wbeg; end_ := wend |}
    (b, e) false
  = Ok (py_slice text (Z.max b wbeg) (Z.min e wend)).
Proof.
  intros Hw Hi. unfold PartialText_getitem_interval, mkInterval, assert_. simpl.
  destruct (Z.leb_spec (Z.max 0 (b - wbeg)) (Z.max 0 (e - wbeg))); [|lia].
  simpl. f_equal.
  rewrite !py_slice_nonneg by lia.
  rewrite slice_nat_slice_nat.
  destruct (Z_lt_le_dec e wbeg) as [Hlt|Hge].
  - unfold slice_nat.
    replace (Nat.min _ _ - _)%nat with 0%nat by lia.
    replace (Z.to_nat (Z.min e wend) - Z.to_nat (Z.max b wbeg))%nat with 0%nat by lia.
    reflexivity.
  - f_equal; lia.
Qed.

(** C7, as amended. On an object in the state of a windowed text with
    bounds [[beg, end)], which only a hand-made object is in, an integer
    position outside the bounds fails with [OutOfRange]. An interval
    looked up the default way never fails: both of its ends are clamped
    into the window, and the result is the original text over
    [[max(b, beg), min(e, end))]. Only a fail-fast lookup rejects an
    interval that is not inside the window. *)
Theorem PartialText_indexing (self : PartialText) :
  windowed self ->
  (forall item, item < beg self \/ end_ self <= item ->
     PartialText_getitem_int self item = Raise OutOfRange)
  /\ (forall b e, 0 <= b <= e ->
        PartialText_getitem_interval self (b, e) false
        = Ok (py_slice (origin self) (Z.max b (beg self)) (Z.min e (end_ self))))
  /\ (forall b e, PartialText_contains_interval self (b, e) = false ->
        PartialText_getitem_interval self (b, e) true = Raise OutOfRange).
Proof.
  intros Hself. apply windowed_state in Hself as [[Hbeg Hle] Hself].
  destruct self as [w text wbeg wend]. simpl in *. injection Hself as ->.
  repeat split.
  - intros item Hout. apply getitem_int_outside; simpl; [|exact Hout].
    apply py_slice_length_le. exact Hle.
  - intros b e Hbe. apply getitem_interval_clamps; lia.
  - intros b e Hout. unfold PartialText_getitem_interval. now rewrite Hout.
Qed.

Lemma PartialText_indexing_witness :
  (forall item, item < 5 \/ 10 <= item ->
     PartialText_getitem_int digits_window item = Raise OutOfRange)
  /\ (forall b e, 0 <= b <= e ->
        PartialText_getitem_interval digits_window (b, e) false
        = Ok (py_slice (py "0123456789abc") (Z.max b 5) (Z.min e 10)))
  /\ (forall b e, PartialText_contains_interval digits_window (b, e) = false ->
        PartialText_getitem_interval digits_window (b, e) true = Raise OutOfRange).
Proof.
  apply (PartialText_indexing digits_window).
  split; [simpl; lia | reflexivity].
Defined.

(** C7, the claim as stated fails. The object is made by hand, as the
    class call is a [TypeError]: the [str] ["56789"] with the attributes
    of the window [[5, 10)] of ["0123456789abc"]. The interval [(3, 7)]
    begins before the window, it is not inside the window, and the
    default lookup answers with the text of [[5, 7)]: the begin is clamped
    without an error. *)
Lemma PartialText_begin_is_clamped :
  PartialText_call (py "0123456789abc") 5 10 = Raise TypeError
  /\ window digits_window = py_slice (origin digits_window) 5 10
  /\ PartialText_contains_interval digits_window (3, 7) = false
  /\ PartialText_getitem_interval digits_window (3, 7) false = Ok (py "56")
  /\ PartialText_getitem_interval digits_window (5, 7) false = Ok (py "56").
Proof. repeat split. Qed.

Lemma check_inside_outside (self : PartialText) (sel : Selection) :
  Exists (fun i => PartialText_contains_interval self i = false) sel ->
  check_inside self sel = Raise OutOfRange.
Proof.
  induction sel as [|i sel IH]; intros H; simpl.
  - inversion H.
  - destruct (PartialText_contains_interval self i) eqn:Hi; simpl; [|reflexivity].
    inversion H; subst; [congruence | auto].
Qed.

(** An interval of the selection outside the window makes
    [PartialText.transform] fail before [StringText.transform] is called. *)
Lemma PartialText_transform_outside (self : PartialText) (transformation : Transformation) :
  Exists (fun i => PartialText_contains_interval self i = false)
         (tr_selection transformation) ->
  PartialText_transform self transformation = Raise OutOfRange.
Proof.
  intros H. unfold PartialText_transform.
  now rewrite (check_inside_outside _ _ H).
Qed.

(** Whatever the window and the transformation, [PartialText.transform]
    hands no text back. *)
Lemma PartialText_transform_no_text (self : PartialText) (transformation : Transformation)
    (r : option StringText) :
  PartialText_transform self transformation = Ok r -> r = None.
Proof.
  unfold PartialText_transform. intros H.
  apply bind_Ok in H as (_ & _ & H). apply bind_Ok in H as (_ & _ & H).
  congruence.
Qed.

(** C5, evaluated where the code departs from it. The class call
    [PartialText("hello world", 0, 5)] is a [TypeError], and so is
    [__init__] on an object made otherwise: the code builds no windowed
    text to transform. On the object made by hand, the [str] ["hello"]
    with the attributes of the window [[0, 5)] of ["hello world"], and a
    transformation of [[0, 5)] inside it, valid for the content
    ["hello"]: [StringText.transform] computes the new text ["HELLO"],
    and [PartialText.transform] drops it and returns [None]. *)
Theorem PartialText_transform_returns_None :
  PartialText_call (py "hello world") 0 5 = Raise TypeError
  /\ PartialText_init (py "hello") (py "hello world") 0 5 = Raise TypeError
  /\ window hello_window = py_slice (origin hello_window) 0 5
  /\ check_inside hello_window (tr_selection upcase_hello) = Ok tt
  /\ StringText_transform hello_window upcase_hello = Ok (py "HELLO")
  /\ PartialText_transform hello_window upcase_hello = Ok None.
Proof. repeat split; vm_compute; reflexivity. Qed.

(** ** The single-pass merge *)

Lemma scan_loop_eq (fuel : nat) (otext : str) (obeg n : Z)
    (subs : list Substitution) (st : scan) :
  scan_loop (S fuel) otext obeg n subs st =
  if opos st <? obeg + n then
    match nth_error subs (subst_index st) with
    | None =>
        mret (add_text otext
                (Z.min (n - (opos st - obeg)) (len otext - (opos st - obeg))) st)
    | Some ((sbeg, send), replacement) =>
        if sbeg >? opos st then
          scan_loop fuel otext obeg n subs
            (add_text otext (Z.min (sbeg - opos st) (n - vpos st)) st)
        else scan_loop fuel otext obeg n subs (add_concealed sbeg send replacement st)
    end
  else mret st.
Proof. reflexivity. Qed.

(** More fuel does not change what the loop returns. *)
Lemma scan_loop_more_fuel (otext : str) (obeg n : Z) (subs : list Substitution) :
  forall fuel st r,
    scan_loop fuel otext obeg n subs st = Done r ->
    scan_loop (S fuel) otext obeg n subs st = Done r.
Proof.
  induction fuel as [|fuel IH]; intros st r.
  - rewrite scan_loop_eq. simpl.
    destruct (opos st <? obeg + n); [discriminate | auto].
  - rewrite (scan_loop_eq (S fuel)), (scan_loop_eq fuel).
    destruct (opos st <? obeg + n); [|auto].
    destruct (nth_error subs (subst_index st)) as [[[sbeg send] replacement]|]; [|auto].
    destruct (sbeg >? opos st); apply IH.
Qed.

Lemma single_pass_empty (fuel : nat) (d : Document) (obeg : Z) :
  _compute_text_from_orig_interval fuel d obeg 0 = Done (Ok ([], [0], [0])).
Proof.
  unfold _compute_text_from_orig_interval.
  assert (Hstart : forall subs, scan_loop fuel (doc_text d) obeg 0 subs (scan_start obeg)
                        = Done (Ok (scan_start obeg))).
  { intros subs. destruct fuel; simpl;
      (destruct (Z.ltb_spec obeg (obeg + 0)); [lia | reflexivity]). }
  rewrite Hstart. reflexivity.
Qed.

(** Whenever the single pass returns, the last entries of the two
    mappings are the length of the view text and the sample length. *)
Lemma single_pass_sentinels (fuel : nat) (d : Document) (obeg n : Z)
    (vtext : str) (o2v v2o : list Z) :
  _compute_text_from_orig_interval fuel d obeg n = Done (Ok (vtext, o2v, v2o)) ->
  py_index o2v (-1) = Ok (len vtext) /\ py_index v2o (-1) = Ok n.
Proof.
  unfold _compute_text_from_orig_interval. intros H.
  apply fbind_Done_Ok in H as (st & _ & H). injection H as <- <- <-.
  assert (Hlast : forall (l : list Z) x, py_index (l ++ [x]) (-1) = Ok x).
  { intros l x. replace (-1) with (len (l ++ [x]) - 1 - len (l ++ [x])) by lia.
    unfold py_index.
    destruct (Z.ltb_spec (len (l ++ [x]) - 1 - len (l ++ [x])) 0); [|lia].
    replace (len (l ++ [x]) - 1 - len (l ++ [x]) + len (l ++ [x])) with (len l)
      by (rewrite len_app; unfold len; simpl; lia).
    destruct (Z.ltb_spec (len l) 0); [pose proof (len_nonneg l); lia|].
    unfold len. rewrite Nat2Z.id, nth_error_app2 by lia.
    now rewrite Nat.sub_diag. }
  split; apply Hlast.
Qed.

(** Substitutions that never lengthen the text fit. *)
Lemma shrinking_fits (obeg n : Z) : forall subs opos vpos,
  vpos <= opos - obeg ->
  shrinking obeg n opos subs = true ->
  fits obeg n opos vpos subs = true.
Proof.
  induction subs as [|[[sbeg send] replacement] subs IH]; intros opos vpos Hv; simpl;
    [reflexivity|].
  rewrite !andb_true_iff, !Z.leb_le.
  intros [[[[H1 H2] H3] H4] H5]. repeat split; try lia.
  apply IH; [lia | exact H5].
Qed.

Section Fits.
Variables (otext : str) (obeg n : Z) (subs : list Substitution).
Hypothesis Hobeg : 0 <= obeg.
Hypothesis Hn : 0 <= n.
Hypothesis Hdoc : obeg + n <= len otext.

Lemma add_text_inv (st : scan) (rest : list Substitution) (k : Z) :
  scan_inv obeg n subs st rest -> 0 <= k -> opos st + k <= obeg + n ->
  fits obeg n (opos st + k) (vpos st + k) rest = true ->
  scan_inv obeg n subs (add_text otext k st) rest.
Proof using Hobeg Hn Hdoc.
  intros [] Hk Hin Hf. constructor; simpl; try assumption; try lia.
  - rewrite len_app, len_py_range. lia.
  - rewrite len_app, len_py_range. lia.
  - rewrite len_concat_snoc, len_py_slice_inside; lia.
Qed.

Lemma add_concealed_inv (st : scan) (sbeg send : Z) (replacement : str)
    (rest : list Substitution) :
  scan_inv obeg n subs st (((sbeg, send), replacement) :: rest) ->
  opos st = sbeg ->
  scan_inv obeg n subs (add_concealed sbeg send replacement st) rest.
Proof.
  intros Hinv Hat.
  pose proof (inv_fits _ _ _ _ _ Hinv) as Hf. simpl in Hf.
  rewrite !andb_true_iff, !Z.leb_le in Hf.
  destruct Hf as [[[[H1 H2] H3] H4] H5].
  pose proof (len_nonneg replacement) as Hr.
  destruct Hinv. constructor; simpl; try lia.
  - eapply skipn_S_tail; eassumption.
  - rewrite len_app, len_py_repeat. lia.
  - rewrite len_app, len_py_repeat. lia.
  - rewrite len_concat_snoc. lia.
  - replace (opos st + (send - sbeg)) with send by lia.
    replace (vpos st + len replacement)
      with (vpos st + (sbeg - opos st) + len replacement) by lia.
    exact H5.
Qed.

Lemma scan_inv_done (st : scan) (rest : list Substitution) :
  scan_inv obeg n subs st rest -> obeg + n <= opos st -> scan_done n st.
Proof. intros [] Hge. split; lia. Qed.

(** Two turns of the loop for every substitution and one for the text
    after the last are enough. *)
Lemma scan_loop_fits (rest : list Substitution) : forall st fuel,
  scan_inv obeg n subs st rest -> (2 * length rest + 1 <= fuel)%nat ->
  exists st', scan_loop fuel otext obeg n subs st = Done (Ok st') /\ scan_done n st'.
Proof using Hobeg Hn Hdoc.
  induction rest as [|[[sbeg send] replacement] rest IH]; intros st fuel Hinv Hfuel.
  - destruct fuel as [|fuel]; [simpl in Hfuel; lia|].
    rewrite scan_loop_eq.
    destruct (Z.ltb_spec (opos st) (obeg + n)) as [Hlt|Hge].
    + rewrite skipn_nth_error, (inv_rest _ _ _ _ _ Hinv). simpl.
      eexists; split; [reflexivity|].
      rewrite Z.min_l by lia.
      apply (scan_inv_done _ []); [|simpl; lia].
      apply add_text_inv; [assumption | | | reflexivity];
        pose proof (inv_opos _ _ _ _ _ Hinv); lia.
    + eexists; split; [reflexivity|]. eapply scan_inv_done; eassumption.
  - assert (Hconceal : forall st1 fuel1,
              scan_inv obeg n subs st1 (((sbeg, send), replacement) :: rest) ->
              opos st1 = sbeg -> (2 * length rest + 2 <= fuel1)%nat ->
              exists st', scan_loop fuel1 otext obeg n subs st1 = Done (Ok st')
                          /\ scan_done n st').
    { intros st1 fuel1 Hinv1 Hat Hfuel1.
      destruct fuel1 as [|fuel1]; [lia|].
      rewrite scan_loop_eq.
      destruct (Z.ltb_spec (opos st1) (obeg + n)) as [Hlt|Hge].
      - rewrite skipn_nth_error, (inv_rest _ _ _ _ _ Hinv1). simpl.
        destruct (Z.gtb_spec sbeg (opos st1)) as [?|_]; [lia|].
        apply IH; [|lia]. now apply add_concealed_inv.
      - eexists; split; [reflexivity|]. eapply scan_inv_done; eassumption. }
    pose proof (inv_fits _ _ _ _ _ Hinv) as Hf. simpl in Hf.
    rewrite !andb_true_iff, !Z.leb_le in Hf.
    destruct Hf as [[[[H1 H2] H3] H4] H5].
    destruct (Z_lt_le_dec (opos st) sbeg) as [Hbefore|Hat].
    + destruct fuel as [|fuel]; [lia|].
      rewrite scan_loop_eq.
      destruct (Z.ltb_spec (opos st) (obeg + n)) as [Hlt|Hge]; [|lia].
      rewrite skipn_nth_error, (inv_rest _ _ _ _ _ Hinv). simpl.
      destruct (Z.gtb_spec sbeg (opos st)) as [_|?]; [|lia].
      rewrite Z.min_l by lia.
      apply Hconceal; [|simpl; lia|simpl in Hfuel; lia].
      apply add_text_inv; [assumption|lia|lia|].
      simpl. rewrite !andb_true_iff, !Z.leb_le.
      repeat split; try lia.
      replace (opos st + (sbeg - opos st)) with sbeg by lia.
      replace (vpos st + (sbeg - opos st) + (sbeg - sbeg) + len replacement)
        with (vpos st + (sbeg - opos st) + len replacement) by lia.
      exact H5.
    + apply Hconceal; [assumption|lia|simpl in Hfuel; lia].
Qed.

End Fits.

(** C9, as amended. Let the range [[obeg, obeg + n)] lie inside the
    document and let the merged substitutions be ascending, disjoint,
    inside the range and such that each of them begins at a view position
    of at most [n] ([fits]). Then two loop turns for every substitution
    and one more are enough for the single pass to return; the forward
    mapping has one entry for each of the [n] original positions and then
    the sentinel [len vtext], the reverse mapping has one entry for each
    view position and then the sentinel [n], and the exclusive end is
    addressable in both. *)
Theorem single_pass_mappings (d : Document) (obeg n : Z) (fuel : nat) :
  0 <= obeg -> 0 <= n -> obeg + n <= len (doc_text d) ->
  fits obeg n obeg 0 (relevant_substitutions (doc_conceal d) obeg n) = true ->
  (2 * length (relevant_substitutions (doc_conceal d) obeg n) + 1 <= fuel)%nat ->
  exists vtext o2v v2o,
    _compute_text_from_orig_interval fuel d obeg n
      = Done (Ok (vtext, o2v ++ [len vtext], v2o ++ [n]))
    /\ len o2v = n /\ len v2o = len vtext
    /\ py_index (o2v ++ [len vtext]) n = Ok (len vtext)
    /\ py_index (v2o ++ [n]) (len vtext) = Ok n.
Proof.
  intros Hobeg Hn Hdoc Hfits Hfuel.
  unfold _compute_text_from_orig_interval.
  destruct (scan_loop_fits (doc_text d) obeg n
              (relevant_substitutions (doc_conceal d) obeg n) Hobeg Hn Hdoc
              (relevant_substitutions (doc_conceal d) obeg n)
              (scan_start obeg) fuel) as (st' & -> & Ho & Hv).
  - constructor; simpl; try exact Hfits; try reflexivity; unfold len; simpl; lia.
  - exact Hfuel.
  - simpl. exists (concat (vtext_builder st')), (opos_to_vpos st'), (vpos_to_opos st').
    repeat split; try assumption.
    + rewrite <- Ho. apply py_index_sentinel.
    + rewrite <- Hv. apply py_index_sentinel.
Qed.

Lemma single_pass_mappings_witness :
  exists vtext o2v v2o,
    _compute_text_from_orig_interval 3 abcdef_doc 0 6
      = Done (Ok (vtext, o2v ++ [len vtext], v2o ++ [6]))
    /\ len o2v = 6 /\ len v2o = len vtext
    /\ py_index (o2v ++ [len vtext]) 6 = Ok (len vtext)
    /\ py_index (v2o ++ [6]) (len vtext) = Ok 6.
Proof.
  apply (single_pass_mappings abcdef_doc 0 6 3);
    first [reflexivity | vm_compute; congruence | vm_compute; lia].
Defined.

(** C9, the claim as stated fails. Over [[0, 8)] of ["abcdef"], a range
    the doubled samples of the screen view reach, the single pass returns
    a forward mapping of 7 entries where the claim counts [8 + 1]; over
    [[0, 2)], which ends inside the substitution of [[1, 3)], it returns 4
    entries where the claim counts [2 + 1]. *)
Lemma single_pass_forward_mapping_miscounts :
  _compute_text_from_orig_interval 3 abcdef_doc 0 8
    = Done (Ok (py "aXdef", [0; 1; 1; 2; 3; 4; 5], [0; 1; 3; 4; 5; 8]))
  /\ len [0; 1; 1; 2; 3; 4; 5] <> 8 + 1
  /\ _compute_text_from_orig_interval 3 abcdef_doc 0 2
    = Done (Ok (py "aX", [0; 1; 1; 2], [0; 1; 2]))
  /\ len [0; 1; 1; 2] <> 2 + 1.
Proof. repeat split; vm_compute; congruence. Qed.

(** ** The sampling loop *)

Lemma sample_loop_eq `{Navigation} (turns fuel : nat) (d : Document)
    (width height obeg s : Z) (probe : str * list Z * list Z) :
  sample_loop (S turns) fuel d width height obeg s probe =
  if (count_wrapped_lines (fst (fst probe)) width <? height)
     && (obeg + s <? len (doc_text d)) then
    _compute_text_from_orig_interval fuel d obeg (s * 2)
    ≫= sample_loop turns fuel d width height obeg (s * 2)
  else mret (s, probe).
Proof. reflexivity. Qed.

Section Sampling.
Context {nav : Navigation}.
Variables (fuel : nat) (d : Document) (width height obeg : Z).

(** The loop is left with the single pass over a sample whose length is
    the first one times a power of two: the first for which the probe has
    enough wrapped lines or reaches the end of the text. Every shorter
    sample was probed and failed both. *)
Lemma sample_loop_probe (turns : nat) : forall s probe s' probe',
  _compute_text_from_orig_interval fuel d obeg s = Done (Ok probe) ->
  sample_loop turns fuel d width height obeg s probe = Done (Ok (s', probe')) ->
  exists k : nat,
    s' = s * 2 ^ Z.of_nat k
    /\ _compute_text_from_orig_interval fuel d obeg s' = Done (Ok probe')
    /\ (count_wrapped_lines (fst (fst probe')) width <? height)
       && (obeg + s' <? len (doc_text d)) = false
    /\ forall j : nat, (j < k)%nat ->
         exists p,
           _compute_text_from_orig_interval fuel d obeg (s * 2 ^ Z.of_nat j) = Done (Ok p)
           /\ (count_wrapped_lines (fst (fst p)) width <? height)
              && (obeg + s * 2 ^ Z.of_nat j <? len (doc_text d)) = true.
Proof.
  induction turns as [|turns IH]; intros s probe s' probe' Hprobe; simpl.
  - destruct (_ && _) eqn:Hguard; [discriminate|].
    intros [= <- <-]. exists 0%nat. simpl. rewrite Z.mul_1_r.
    repeat split; [assumption|assumption|]. intros j Hj. lia.
  - destruct (_ && _) eqn:Hguard.
    + destruct (_compute_text_from_orig_interval fuel d obeg (s * 2))
        as [[next|e]|] eqn:Hnext; simpl; try discriminate.
      intros Hloop. destruct (IH _ _ _ _ Hnext Hloop) as (k & Hk & H1 & H3 & Hleast).
      exists (S k). split.
      { rewrite Nat2Z.inj_succ, Z.pow_succ_r by lia. lia. }
      split; [assumption|]. split; [assumption|].
      intros [|j] Hj.
      * exists probe. simpl. rewrite Z.mul_1_r. split; assumption.
      * destruct (Hleast j) as (p & Hp & Hg); [lia|].
        exists p. rewrite Nat2Z.inj_succ, Z.pow_succ_r by lia.
        replace (s * (2 * 2 ^ Z.of_nat j)) with (s * 2 * 2 ^ Z.of_nat j) by lia.
        split; assumption.
    + intros [= <- <-]. exists 0%nat. simpl. rewrite Z.mul_1_r.
      repeat split; [assumption|assumption|]. intros j Hj. lia.
Qed.

(** C2, as amended. When the remaining document is empty the screen view
    is the single pass over the empty range. Otherwise the loop is left
    with the single pass over a sample of length [2 ^ k], where [k] is
    the least exponent for which the probe has [height] wrapped lines or
    the sample reaches the end of the text: every shorter sample was
    probed and has neither. The view text is the text of that pass
    restricted to the snapped length, which is more than half of it, as
    the specification has it; the forward mapping is the one of the pass
    with the length of the unrestricted text appended, restricted to one
    entry more than the view text, so it begins with the restricted
    forward mapping of the pass; the reverse mapping is not restricted:
    it is the whole reverse mapping of the pass with the sample length
    appended. *)
Theorem view_interval_from_single_pass (text : str) (o2v_view v2o_view : list Z) :
  _compute_text_from_view_interval fuel d width height obeg
    = Done (Ok (text, o2v_view, v2o_view)) ->
  (len (doc_text d) - obeg = 0 /\
   _compute_text_from_orig_interval fuel d obeg 0 = Done (Ok (text, o2v_view, v2o_view)))
  \/
  (exists (k : nat) vtext o2v v2o,
     _compute_text_from_orig_interval fuel d obeg (2 ^ Z.of_nat k)
       = Done (Ok (vtext, o2v, v2o))
     /\ (forall j : nat, (j < k)%nat ->
           exists p,
             _compute_text_from_orig_interval fuel d obeg (2 ^ Z.of_nat j) = Done (Ok p)
             /\ count_wrapped_lines (fst (fst p)) width < height
             /\ obeg + 2 ^ Z.of_nat j < len (doc_text d))
     /\ (height <= count_wrapped_lines vtext width
         \/ len (doc_text d) <= obeg + 2 ^ Z.of_nat k)
     /\ len vtext / 2 < snap vtext width height
     /\ text = py_prefix vtext (snap vtext width height)
     /\ o2v_view = py_prefix (o2v ++ [len vtext]) (snap vtext width height + 1)
     /\ v2o_view = v2o ++ [2 ^ Z.of_nat k]
     /\ spec_restricted_single_pass fuel d obeg (2 ^ Z.of_nat k) (snap vtext width height)
        = Done (Ok (text, py_prefix o2v (snap vtext width height + 1),
                    py_prefix v2o (snap vtext width height + 1)))
     /\ len text = snap vtext width height
     /\ py_prefix o2v (snap vtext width height + 1) `prefix_of` o2v_view
     /\ len o2v_view = len text + 1
     /\ v2o `prefix_of` v2o_view).
Proof.
  unfold _compute_text_from_view_interval.
  destruct (Z.eqb_spec (len (doc_text d) - obeg) 0) as [Hempty|Hne].
  - intros [= <- <- <-]. left. split; [assumption|]. apply single_pass_empty.
  - destruct (len (doc_text d) - obeg <? 0); [discriminate|].
    intros H. right.
    apply fbind_Done_Ok in H as (probe & Hprobe & H).
    apply fbind_Done_Ok in H as (first & _ & H).
    apply fbind_Done_Ok in H as (_ & _ & H).
    apply fbind_Done_Ok in H as ([s [[vtext o2v] v2o]] & Hloop & H).
    destruct (sample_loop_probe _ _ _ _ _ Hprobe Hloop)
      as (k & Hk & Hfinal & Hexit & Hleast).
    exists k, vtext, o2v, v2o. rewrite Z.mul_1_l in Hk. subst s.
    split; [exact Hfinal|].
    split.
    { intros j Hj. destruct (Hleast j Hj) as (p & Hp & Hg).
      rewrite Z.mul_1_l in Hp, Hg. exists p.
      apply andb_prop in Hg as [Hg1 Hg2].
      apply Z.ltb_lt in Hg1. apply Z.ltb_lt in Hg2. auto. }
    split.
    { simpl in Hexit. apply andb_false_iff in Hexit as [Hexit|Hexit];
        apply Z.ltb_ge in Hexit; auto. }
    injection H as H. unfold snap_view in H.
    destruct (assert_ (snap vtext width height >? len vtext / 2) "") as [u1|] eqn:Hhalf;
      [|discriminate].
    apply assert_Ok in Hhalf. simpl in H.
    destruct (assert_ (len (py_prefix vtext (snap vtext width height)) =? _) _)
      as [u2|] eqn:Htext; [|discriminate].
    apply assert_Ok, Z.eqb_eq in Htext. simpl in H.
    destruct (assert_ (len (py_prefix (o2v ++ [len vtext]) _) =? _) _)
      as [u3|] eqn:Hfwd; [|discriminate].
    apply assert_Ok, Z.eqb_eq in Hfwd. simpl in H.
    injection H as <- <- <-.
    apply Z.gtb_lt in Hhalf.
    assert (Hreq : 0 <= snap vtext width height).
    { assert (0 <= len vtext / 2) by (apply Z.div_pos; [apply len_nonneg | lia]). lia. }
    split; [exact Hhalf|].
    split; [reflexivity|]. split; [reflexivity|]. split; [reflexivity|].
    repeat split.
    + unfold spec_restricted_single_pass. now rewrite Hfinal.
    + exact Htext.
    + rewrite !py_prefix_pos by lia. apply firstn_prefix_app.
    + rewrite Htext. exact Hfwd.
    + now exists [2 ^ Z.of_nat k].
Qed.

End Sampling.

(** ** Projections into the view *)

Lemma highlight_loop_spec (self : TextView) : forall positions hl,
  highlight_loop self positions = Ok hl ->
  Forall2 (fun i tag => exists opos,
             py_index (viewpos_to_origpos self) i = Ok opos
             /\ tag = tag_at (doc self) opos) positions hl.
Proof.
  induction positions as [|i positions IH]; intros hl; simpl.
  - intros [= <-]. constructor.
  - intros H. apply bind_Ok in H as (opos & Hopos & H).
    apply bind_Ok in H as (rest & Hrest & H). injection H as <-.
    constructor; [|auto]. exists opos. split; [assumption | reflexivity].
Qed.

Lemma _compute_highlighting_spec (self : TextView) (hl : list string) :
  _compute_highlighting self = Ok hl ->
  len hl = len (text self)
  /\ forall i, 0 <= i < len (text self) ->
       exists opos, py_index (viewpos_to_origpos self) i = Ok opos
                    /\ py_index hl i = Ok (tag_at (doc self) opos).
Proof.
  unfold _compute_highlighting, len. rewrite py_range_0.
  intros H. apply highlight_loop_spec in H.
  pose proof (Forall2_same_length _ _ _ H) as Hlen.
  rewrite length_map, length_seq in Hlen.
  split; [lia|]. intros i Hi.
  destruct (nth_error hl (Z.to_nat i)) as [tag|] eqn:Htag.
  2:{ apply nth_error_None in Htag. lia. }
  assert (Hpos : nth_error (map Z.of_nat (seq 0 (length (text self)))) (Z.to_nat i)
                 = Some i).
  { rewrite nth_error_map, nth_error_seq.
    destruct (Nat.ltb_spec (Z.to_nat i) (length (text self))); [|lia].
    simpl. f_equal. lia. }
  destruct (Forall2_nth_error_left _ _ _ H _ _ Hpos) as (tag' & Htag' & opos & Hopos & ->).
  exists opos. split; [assumption|].
  rewrite <- (Z2Nat.id i) at 1 by lia. apply py_index_nth. congruence.
Qed.

Lemma _compute_selectionview_post_spec (self : TextView) : forall sel u,
  _compute_selectionview_post self sel = Ok u ->
  Forall (fun i : Interval => 0 <= fst i <= snd i /\ snd i <= len (text self)) sel.
Proof.
  induction sel as [|[vbeg vend] sel IH]; intros u; simpl; [constructor|].
  intros H. apply bind_Ok in H as (u1 & Hassert & H).
  apply assert_Ok in Hassert.
  rewrite !andb_true_iff, !Z.leb_le in Hassert.
  constructor; [simpl; lia | eauto].
Qed.

Lemma _compute_selection_spec (self : TextView) (sel : Selection) :
  _compute_selection self = Ok sel ->
  Forall (fun i : Interval => 0 <= fst i <= snd i /\ snd i <= len (text self)) sel.
Proof.
  unfold _compute_selection, post. intros H.
  apply bind_Ok in H as (sel' & _ & H).
  apply bind_Ok in H as (u & Hpost & H). injection H as <-.
  eapply _compute_selectionview_post_spec; eassumption.
Qed.

Lemma finish_view_Ok (d : Document) (w : Z) (h : option Z) (off : Z)
    (r : str * list Z * list Z) (v : TextView) :
  finish_view d w h off r = Ok v ->
  exists self0 self1,
    text self0 = text v /\ _compute_selection self0 = Ok (selection v)
    /\ text self1 = text v /\ doc self1 = doc v
    /\ viewpos_to_origpos self1 = viewpos_to_origpos v
    /\ _compute_highlighting self1 = Ok (highlighting v)
    /\ doc v = d /\ (text v, origpos_to_viewpos v, viewpos_to_origpos v) = r.
Proof.
  destruct r as [[t f] b]. unfold finish_view. intros H.
  apply bind_Ok in H as (sel & Hsel & H).
  apply bind_Ok in H as (hl & Hhl & H). injection H as <-.
  eexists _, _. split; [|split; [exact Hsel|]]; [reflexivity|].
  split; [|split; [|split; [|split; [exact Hhl|]]]]; try reflexivity.
  split; reflexivity.
Qed.

Section Constructed.
Context {nav : Navigation}.

Lemma constructed_view (fuel : nat) (d : Document) (w h off : Z) (v : TextView) :
  for_screen fuel d w h off = Done (Ok v) \/ for_entire_text fuel d w = Done (Ok v) ->
  exists hh r, finish_view d w hh off r = Ok v \/ finish_view d w hh 0 r = Ok v.
Proof.
  intros [H|H].
  - unfold for_screen in H.
    destruct (w <=? 0); [discriminate|]. destruct (h <=? 0); [discriminate|].
    destruct (_ || _); [discriminate|].
    apply fbind_Done_Ok in H as (r & _ & H). injection H as H. eauto.
  - unfold for_entire_text in H.
    destruct (w <=? 0); [discriminate|].
    apply fbind_Done_Ok in H as (r & _ & H). injection H as H. eauto.
Qed.

(** In a view that one of the two constructors does return, every
    interval of the selection satisfies [0 <= vbeg <= vend <= len(text)]:
    the constructor of [Interval] and the post-condition of
    [_compute_selection] raise for any other. This says nothing of what
    the projection computes. *)
Lemma selection_in_view (fuel : nat) (d : Document) (w h off : Z) (v : TextView) :
  for_screen fuel d w h off = Done (Ok v) \/ for_entire_text fuel d w = Done (Ok v) ->
  Forall (fun i : Interval => 0 <= fst i <= snd i /\ snd i <= len (text v)) (selection v).
Proof.
  intros H. apply constructed_view in H as (hh & r & [H|H]);
    apply finish_view_Ok in H as (self0 & _ & Htext & Hsel & _);
    rewrite <- Htext; now apply _compute_selection_spec.
Qed.

(** C10. In every view that one of the two constructors returns, the
    highlighting has as many tags as the view text has characters, and
    the tag of view position [i] is the tag the document has for the
    original position the reverse mapping gives for [i], the empty string
    when it has none. *)
Theorem highlighting_of_view (fuel : nat) (d : Document) (w h off : Z) (v : TextView) :
  for_screen fuel d w h off = Done (Ok v) \/ for_entire_text fuel d w = Done (Ok v) ->
  len (highlighting v) = len (text v)
  /\ forall i, 0 <= i < len (text v) ->
       exists opos, py_index (viewpos_to_origpos v) i = Ok opos
                    /\ py_index (highlighting v) i = Ok (tag_at d opos).
Proof.
  intros H. apply constructed_view in H as (hh & r & [H|H]);
    apply finish_view_Ok in H as (_ & self1 & _ & _ & Htext & Hdoc & Hmap & Hhl & Hd & _);
    apply _compute_highlighting_spec in Hhl;
    rewrite Htext, Hmap, Hdoc, Hd in Hhl; exact Hhl.
Qed.

End Constructed.

(** ** Divergence of the merge scan *)

(** Once the view text is as long as the sample and a substitution begins
    after [opos], the bound on the non-concealed text is not positive and
    no turn of the loop moves [opos] forward. *)
Lemma scan_loop_stuck (otext : str) (obeg n : Z) (subs : list Substitution)
    (sbeg send : Z) (replacement : str) : forall fuel st,
  opos st < obeg + n ->
  nth_error subs (subst_index st) = Some ((sbeg, send), replacement) ->
  opos st < sbeg ->
  n <= vpos st ->
  scan_loop fuel otext obeg n subs st = OutOfFuel.
Proof.
  induction fuel as [|fuel IH]; intros st Hguard Hsub Hbefore Hfull.
  - simpl. destruct (Z.ltb_spec (opos st) (obeg + n)); [reflexivity | lia].
  - rewrite scan_loop_eq.
    destruct (Z.ltb_spec (opos st) (obeg + n)); [|lia].
    rewrite Hsub.
    destruct (Z.gtb_spec sbeg (opos st)); [|lia].
    apply IH; simpl; try assumption; lia.
Qed.

Lemma tab_doc_scan_diverges (fuel : nat) :
  _compute_text_from_orig_interval fuel tab_doc 0 4 = OutOfFuel.
Proof.
  unfold _compute_text_from_orig_interval.
  change (relevant_substitutions (doc_conceal tab_doc) 0 4)
    with [((0, 1), py "    "); ((2, 3), py "    ")].
  destruct fuel as [|fuel]; [reflexivity|].
  rewrite scan_loop_eq.
  change (opos (scan_start 0) <? 0 + 4) with true.
  change (nth_error _ (subst_index (scan_start 0)))
    with (Some (((0, 1), py "    ") : Substitution)).
  cbv beta iota.
  change (0 >? opos (scan_start 0)) with false. cbv iota.
  rewrite (scan_loop_stuck _ 0 4 _ 2 3 (py "    "));
    first [reflexivity | vm_compute; congruence].
Qed.

(** C3, evaluated where the code departs from it. The text ["\ta\tb"]
    with each tab shown as four spaces, width 80, height 2, offset 0: the
    probes of length 1 and 2 return, and the merge scan of the probe of
    length 4 never leaves its loop, however much fuel it is given. *)
Theorem tab_doc_never_returns (fuel : nat) :
  for_screen (nav := WrapModel.navigation) fuel tab_doc 80 2 0 = OutOfFuel.
Proof.
  destruct fuel as [|[|fuel]]; [reflexivity | reflexivity |].
  unfold for_screen, _compute_text_from_view_interval.
  change (80 <=? 0) with false. change (2 <=? 0) with false.
  change ((0 <? 0) || (0 >? len (doc_text tab_doc))) with false.
  change (len (doc_text tab_doc) - 0 =? 0) with false.
  change (len (doc_text tab_doc) - 0 <? 0) with false.
  cbv iota.
  change (_compute_text_from_orig_interval (S (S fuel)) tab_doc 0 1)
    with (Done (Ok (py "    ", [0; 4], [0; 0; 0; 0; 1]))).
  cbn [mbind fueled_bind fst snd py_index].
  rewrite sample_loop_eq.
  change (_ && _) with true. cbv iota.
  change (_compute_text_from_orig_interval (S (S fuel)) tab_doc 0 (1 * 2))
    with (Done (Ok (py "    a", [0; 4; 5], [0; 0; 0; 0; 1; 2]))).
  cbn [mbind fueled_bind].
  rewrite sample_loop_eq.
  change (_ && _) with true. cbv iota.
  change (1 * 2 * 2) with 4.
  rewrite tab_doc_scan_diverges. reflexivity.
Qed.

(** ** The documents of the examples *)

Section Examples.
#[local] Existing Instance WrapModel.navigation.

(** C1, as amended. The view text ["aXdef"], the forward mapping
    [[0; 1; 1; 2; 3; 4]] with its sentinel [5] and the reverse mapping
    [[0; 1; 3; 4; 5]] with its sentinel [6] are what the single pass
    returns for ["abcdef"] over the explicit interval [[0, 6)], given
    fuel for three turns of its loop. *)
Theorem abcdef_single_pass (fuel : nat) :
  _compute_text_from_orig_interval (3 + fuel) abcdef_doc 0 6
  = Done (Ok (py "aXdef", [0; 1; 1; 2; 3; 4; 5], [0; 1; 3; 4; 5; 6])).
Proof. reflexivity. Qed.

(** C1, the claim as stated fails. The screen view of width 10 and
    height 1 at offset 0 stops at its first probe, the one character
    ["a"], which already wraps into one line: whatever the fuel, the view
    is not the one the claim gives. *)
Lemma abcdef_screen_view_is_a :
  _compute_text_from_view_interval 1 abcdef_doc 10 1 0
    = Done (Ok (py "a", [0; 1], [0; 1; 1]))
  /\ (exists v, for_screen 1 abcdef_doc 10 1 0 = Done (Ok v)
                /\ text v = py "a"
                /\ origpos_to_viewpos v = [0; 1]
                /\ viewpos_to_origpos v = [0; 1; 1])
  /\ forall fuel,
       _compute_text_from_view_interval fuel abcdef_doc 10 1 0
       <> Done (Ok (py "aXdef", [0; 1; 1; 2; 3; 4; 5], [0; 1; 3; 4; 5; 6])).
Proof.
  split; [reflexivity|]. split.
  - eexists. split; [vm_compute; reflexivity|]. repeat split.
  - intros [|fuel]; vm_compute; discriminate.
Qed.

Lemma view_interval_from_single_pass_witness :
  (len (doc_text abcdefghij_doc) - 0 = 0 /\
   _compute_text_from_orig_interval 8 abcdefghij_doc 0 0
   = Done (Ok (py "aXdefg", [0; 1; 1; 2; 3; 4; 5], [0; 1; 3; 4; 5; 6; 7; 8; 8])))
  \/
  (exists (k : nat) vtext o2v v2o,
     _compute_text_from_orig_interval 8 abcdefghij_doc 0 (2 ^ Z.of_nat k)
       = Done (Ok (vtext, o2v, v2o))
     /\ (forall j : nat, (j < k)%nat ->
           exists p,
             _compute_text_from_orig_interval 8 abcdefghij_doc 0 (2 ^ Z.of_nat j)
               = Done (Ok p)
             /\ count_wrapped_lines (fst (fst p)) 2 < 3
             /\ 0 + 2 ^ Z.of_nat j < len (doc_text abcdefghij_doc))
     /\ (3 <= count_wrapped_lines vtext 2
         \/ len (doc_text abcdefghij_doc) <= 0 + 2 ^ Z.of_nat k)
     /\ len vtext / 2 < snap vtext 2 3
     /\ py "aXdefg" = py_prefix vtext (snap vtext 2 3)
     /\ [0; 1; 1; 2; 3; 4; 5] = py_prefix (o2v ++ [len vtext]) (snap vtext 2 3 + 1)
     /\ [0; 1; 3; 4; 5; 6; 7; 8; 8] = v2o ++ [2 ^ Z.of_nat k]
     /\ spec_restricted_single_pass 8 abcdefghij_doc 0 (2 ^ Z.of_nat k) (snap vtext 2 3)
        = Done (Ok (py "aXdefg", py_prefix o2v (snap vtext 2 3 + 1),
                    py_prefix v2o (snap vtext 2 3 + 1)))
     /\ len (py "aXdefg") = snap vtext 2 3
     /\ py_prefix o2v (snap vtext 2 3 + 1) `prefix_of` [0; 1; 1; 2; 3; 4; 5]
     /\ len [0; 1; 1; 2; 3; 4; 5] = len (py "aXdefg") + 1
     /\ v2o `prefix_of` [0; 1; 3; 4; 5; 6; 7; 8; 8]).
Proof.
  apply (view_interval_from_single_pass 8 abcdefghij_doc 2 3 0 (py "aXdefg")
           [0; 1; 1; 2; 3; 4; 5] [0; 1; 3; 4; 5; 6; 7; 8; 8]).
  reflexivity.
Defined.

(** The sample of the witness is doubled three times and its text is cut:
    the probes over [[0, 1)], [[0, 2)] and [[0, 4)] have one, one and two
    wrapped lines of width 2, the probe over [[0, 8)] has the text
    ["aXdefgh"] in four, and the third wrapped line ends at 6. *)
Lemma abcdefghij_sampling :
  map (fun s => _compute_text_from_orig_interval 8 abcdefghij_doc 0 s) [1; 2; 4; 8]
  = [Done (Ok (py "a", [0; 1], [0; 1]));
     Done (Ok (py "aX", [0; 1; 1; 2], [0; 1; 2]));
     Done (Ok (py "aXd", [0; 1; 1; 2; 3], [0; 1; 3; 4]));
     Done (Ok (py "aXdefgh", [0; 1; 1; 2; 3; 4; 5; 6; 7], [0; 1; 3; 4; 5; 6; 7; 8]))]
  /\ map (fun t => count_wrapped_lines (py t) 2) ["a"; "aX"; "aXd"; "aXdefgh"]%string
     = [1; 1; 2; 4]
  /\ snap (py "aXdefgh") 2 3 = 6
  /\ _compute_text_from_view_interval 8 abcdefghij_doc 2 3 0
     = Done (Ok (py "aXdefg", [0; 1; 1; 2; 3; 4; 5], [0; 1; 3; 4; 5; 6; 7; 8; 8])).
Proof. repeat split. Qed.

(** C2, the claim as stated fails. For the example the loop is left with
    the sample of length 1 and the snapped length is 1; the single pass
    over that sample restricted to that length has the reverse mapping
    [[0; 1]], and the screen view returns [[0; 1; 1]]. For ["abcdefghij"]
    at width 2 and height 3 the loop is left with the sample of length 8
    and the snapped length is 6; the single pass over [[0, 8)] restricted
    to that length has the reverse mapping [[0; 1; 3; 4; 5; 6; 7]], and
    the screen view returns [[0; 1; 3; 4; 5; 6; 7; 8; 8]]. *)
Lemma sampled_view_differs_from_restriction :
  sample_loop 1 1 abcdef_doc 10 1 0 1 (py "a", [0; 1], [0; 1])
    = Done (Ok (1, (py "a", [0; 1], [0; 1])))
  /\ snap (py "a") 10 1 = 1
  /\ spec_restricted_single_pass 1 abcdef_doc 0 1 1
     = Done (Ok (py "a", [0; 1], [0; 1]))
  /\ _compute_text_from_view_interval 1 abcdef_doc 10 1 0
     = Done (Ok (py "a", [0; 1], [0; 1; 1]))
  /\ _compute_text_from_view_interval 1 abcdef_doc 10 1 0
     <> spec_restricted_single_pass 1 abcdef_doc 0 1 1
  /\ sample_loop 8 8 abcdefghij_doc 2 3 0 1 (py "a", [0; 1], [0; 1])
     = Done (Ok (8, (py "aXdefgh", [0; 1; 1; 2; 3; 4; 5; 6; 7],
                     [0; 1; 3; 4; 5; 6; 7; 8])))
  /\ snap (py "aXdefgh") 2 3 = 6
  /\ spec_restricted_single_pass 8 abcdefghij_doc 0 8 6
     = Done (Ok (py "aXdefg", [0; 1; 1; 2; 3; 4; 5], [0; 1; 3; 4; 5; 6; 7]))
  /\ _compute_text_from_view_interval 8 abcdefghij_doc 2 3 0
     = Done (Ok (py "aXdefg", [0; 1; 1; 2; 3; 4; 5], [0; 1; 3; 4; 5; 6; 7; 8; 8]))
  /\ _compute_text_from_view_interval 8 abcdefghij_doc 2 3 0
     <> spec_restricted_single_pass 8 abcdefghij_doc 0 8 6.
Proof. repeat split; vm_compute; congruence. Qed.

(** C4, evaluated where the code departs from it. A tab shown as eight
    spaces, width 3, height 1: the first probe is the last one, its view
    text has 8 characters, the snapped length is 3, and [3 > 8 // 2] does
    not hold; the view is not built. The same happens to a remainder that
    is concealed altogether, where both lengths are 0. *)
Theorem self_check_fails (fuel : nat) :
  _compute_text_from_orig_interval (1 + fuel) wide_tab_doc 0 1
    = Done (Ok (py "        ", [0; 8], [0; 0; 0; 0; 0; 0; 0; 0; 1]))
  /\ sample_loop (1 + fuel) (1 + fuel) wide_tab_doc 3 1 0 1
    (py "        ", [0; 8], [0; 0; 0; 0; 0; 0; 0; 0; 1])
    = Done (Ok (1, (py "        ", [0; 8], [0; 0; 0; 0; 0; 0; 0; 0; 1])))
  /\ snap (py "        ") 3 1 = 3
  /\ len (py "        ") / 2 = 4
  /\ for_screen (1 + fuel) wide_tab_doc 3 1 0 = Done (Raise (AssertionError ""))
  /\ snap [] 10 1 = 0
  /\ for_screen (1 + fuel) concealed_doc 10 1 0 = Done (Raise (AssertionError "")).
Proof. destruct fuel; repeat apply conj; vm_compute; reflexivity. Qed.

(** C8, evaluated where the code departs from it. ["ab\tc"] with the tab
    shown as four spaces and selected, width 2, height 2, offset 0. The
    sample is doubled to [[0, 4)], whose view text ["ab    c"] is cut to
    the two wrapped lines ["ab  "]; the forward mapping keeps, for the
    original position 3, the view position 6 it has in the text that was
    not cut. The selected interval [(2, 3)] is projected onto [(2, 6)],
    which ends outside the four characters of the view: the
    post-condition of [_compute_selection] fails and no view is built. *)
Theorem selected_tab_projects_outside (fuel : nat) :
  _compute_text_from_view_interval (3 + fuel) selected_tab_doc 2 2 0
    = Done (Ok (text selected_tab_view,
                origpos_to_viewpos selected_tab_view,
                viewpos_to_origpos selected_tab_view))
  /\ len (text selected_tab_view) = 4
  /\ selection_loop selected_tab_view 0 4 (doc_selection selected_tab_doc) []
     = Ok [(2, 6)]
  /\ _compute_selectionview_post selected_tab_view [(2, 6)]
     = Raise (AssertionError "")
  /\ _compute_selection selected_tab_view = Raise (AssertionError "")
  /\ for_screen (3 + fuel) selected_tab_doc 2 2 0 = Done (Raise (AssertionError "")).
Proof. destruct fuel; repeat apply conj; vm_compute; reflexivity. Qed.

Lemma selection_in_view_witness :
  exists v,
    for_screen 8 tagged_doc 10 2 0 = Done (Ok v)
    /\ selection v = [(0, 0); (1, 4)]
    /\ Forall (fun i : Interval => 0 <= fst i <= snd i /\ snd i <= len (text v))
              (selection v).
Proof.
  eexists. split; [vm_compute; reflexivity|]. split; [reflexivity|].
  apply (selection_in_view 8 tagged_doc 10 2 0). left. vm_compute. reflexivity.
Defined.

Lemma highlighting_of_view_witness :
  exists v,
    for_entire_text 8 tagged_doc 10 = Done (Ok v)
    /\ highlighting v = [""; "kw"; "kw"; ""; ""; ""]%string
    /\ len (highlighting v) = len (text v)
    /\ forall i, 0 <= i < len (text v) ->
         exists opos, py_index (viewpos_to_origpos v) i = Ok opos
                      /\ py_index (highlighting v) i = Ok (tag_at tagged_doc opos).
Proof.
  eexists. split; [vm_compute; reflexivity|]. split; [reflexivity|].
  apply (highlighting_of_view 8 tagged_doc 10 0 0). right. vm_compute. reflexivity.
Defined.

End Examples.

(** Whatever the navigation functions, the width and the height, the
    screen view of a remainder that is concealed altogether fails one of
    the self-checks of the snapping. *)
Lemma concealed_doc_has_no_view `{Navigation} (fuel : nat) (w h : Z) :
  0 < w -> 0 < h ->
  exists msg, for_screen (S fuel) concealed_doc w h 0 = Done (Raise (AssertionError msg)).
Proof.
  intros Hw Hh. unfold for_screen.
  destruct (Z.leb_spec w 0); [lia|]. destruct (Z.leb_spec h 0); [lia|].
  change ((0 <? 0) || (0 >? len (doc_text concealed_doc))) with false. cbv iota.
  unfold _compute_text_from_view_interval.
  change (len (doc_text concealed_doc) - 0 =? 0) with false.
  change (len (doc_text concealed_doc) - 0 <? 0) with false. cbv iota.
  assert (Hprobe : _compute_text_from_orig_interval (S fuel) concealed_doc 0 1
                   = Done (Ok (@nil ascii, [0; 0], [1])))
    by (destruct fuel; reflexivity).
  rewrite Hprobe.
  cbn [mbind fueled_bind fst snd py_index]. simpl.
  rewrite andb_false_r. simpl.
  unfold snap_view.
  destruct (Z.gtb_spec (snap [] w h) (len (@nil ascii) / 2)) as [Hpos|Hneg]; simpl.
  - change (len (@nil ascii) / 2) with 0 in Hpos.
    destruct (Z.eqb_spec (len (py_prefix (@nil ascii) (snap [] w h))) (snap [] w h))
      as [Heq|Hne]; simpl; [|eauto].
    rewrite py_prefix_pos in Heq by lia. rewrite firstn_nil in Heq.
    change (len []) with 0 in Heq. lia.
  - eauto.
Qed.

(** ** Splicing *)

Lemma firstn_add_skipn {A} (l : list A) (m k : nat) :
  firstn m l ++ firstn k (skipn m l) = firstn (m + k) l.
Proof.
  revert l. induction m as [|m IH]; intros [|x l]; simpl; try reflexivity.
  - now rewrite firstn_nil.
  - now rewrite IH.
Qed.

Lemma slice_nat_app {A} (l : list A) (a b c : nat) :
  (a <= b <= c)%nat -> slice_nat l a b ++ slice_nat l b c = slice_nat l a c.
Proof.
  intros H. unfold slice_nat.
  replace (skipn b l) with (skipn (b - a) (skipn a l))
    by (rewrite skipn_skipn; f_equal; lia).
  rewrite firstn_add_skipn. f_equal. lia.
Qed.

Lemma py_slice_app {A} (l : list A) (a b c : Z) :
  0 <= a <= b -> b <= c -> py_slice l a b ++ py_slice l b c = py_slice l a c.
Proof.
  intros Hab Hbc. rewrite !py_slice_nonneg by lia. apply slice_nat_app. lia.
Qed.

Lemma py_slice_all {A} (l : list A) : py_slice l 0 (len l) = l.
Proof.
  rewrite py_slice_nonneg by (pose proof (len_nonneg l); lia).
  unfold slice_nat, len. simpl. rewrite Nat2Z.id, Nat.sub_0_r. apply firstn_all.
Qed.

Lemma py_slice_empty {A} (l : list A) (a : Z) : 0 <= a -> py_slice l a a = [].
Proof.
  intros Ha. rewrite py_slice_nonneg by lia. unfold slice_nat.
  now rewrite Nat.sub_diag.
Qed.

Lemma partition_content_StringText_eq (self : StringText) (p : list (bool * Interval)) :
  partition_content self p
  = Ok (map (fun '(in_selection, i) => (in_selection, StringText_getitem_interval self i)) p).
Proof.
  induction p as [|[b i] p IH]; simpl; [reflexivity|]. now rewrite IH.
Qed.

Lemma py_index_of_nat {A} (l : list A) (i : nat) :
  py_index l (Z.of_nat i)
  = match nth_error l i with Some x => Ok x | None => Raise IndexError end.
Proof.
  unfold py_index.
  destruct (Z.ltb_spec (Z.of_nat i) 0); [lia|].
  destruct (Z.ltb_spec (Z.of_nat i) 0); [lia|].
  now rewrite Nat2Z.id.
Qed.

Lemma skipn_cons_nth {A} (l : list A) (i : nat) (x : A) :
  nth_error l i = Some x -> skipn i l = x :: skipn (S i) l.
Proof.
  revert i. induction l as [|y l IH]; intros [|i]; simpl; try discriminate.
  - now intros [= ->].
  - apply IH.
Qed.

(** The walk over the runs of a partition, with the replacements from
    [count] on, when there is one for every interval. *)
Lemma replace_runs_spliced (self : StringText) (repls : list str) :
  forall (sel : Selection) (pos : Z) (count : nat),
    (count + length sel <= length repls)%nat ->
    exists pieces,
      replace_runs repls
        (map (fun '(in_selection, i) => (in_selection, StringText_getitem_interval self i))
             (partition_from pos sel (len self)))
        (Z.of_nat count) = Ok pieces
      /\ concat pieces = spliced self pos sel (skipn count repls).
Proof.
  induction sel as [|[b e] sel IH]; intros pos count Hlen; simpl in *.
  - eexists. split; [reflexivity|]. simpl. now rewrite app_nil_r.
  - rewrite py_index_of_nat.
    destruct (nth_error repls count) as [r|] eqn:Hr.
    2:{ apply nth_error_None in Hr. lia. }
    simpl. replace (Z.of_nat count + 1) with (Z.of_nat (S count)) by lia.
    destruct (IH e (S count)) as (pieces & -> & Hpieces); [lia|].
    simpl. eexists. split; [reflexivity|].
    simpl. rewrite Hpieces, (skipn_cons_nth _ _ _ Hr). reflexivity.
Qed.

Lemma replace_runs_too_few (self : StringText) (repls : list str) :
  forall (sel : Selection) (pos : Z) (count : nat),
    (count <= length repls)%nat ->
    (length repls < count + length sel)%nat ->
    replace_runs repls
      (map (fun '(in_selection, i) => (in_selection, StringText_getitem_interval self i))
           (partition_from pos sel (len self)))
      (Z.of_nat count) = Raise IndexError.
Proof.
  induction sel as [|[b e] sel IH]; intros pos count Hcount Hlen; simpl in *; [lia|].
  rewrite py_index_of_nat.
  destruct (nth_error repls count) as [r|] eqn:Hr; [|reflexivity].
  simpl. replace (Z.of_nat count + 1) with (Z.of_nat (S count)) by lia.
  assert (count < length repls)%nat by (apply nth_error_Some; congruence).
  rewrite IH; [reflexivity|lia|lia].
Qed.

(** A transformation that is not stale gives the spliced text when it
    has a replacement for every interval of its selection, and ends in an
    [IndexError] when it has fewer. *)
Lemma transform_fresh (self : StringText) (transformation : Transformation) :
  map (StringText_getitem_interval self) (tr_selection transformation)
    = original_content transformation ->
  validate transformation self = true ->
  StringText_transform self transformation
  = if (length (tr_selection transformation)
        <=? length (replacements transformation))%nat
    then Ok (spliced self 0 (tr_selection transformation) (replacements transformation))
    else Raise IndexError.
Proof.
  intros Hcontent Hvalid. unfold StringText_transform.
  rewrite Selection_content_StringText. simpl.
  rewrite bool_decide_eq_true_2 by exact Hcontent. simpl.
  rewrite Hvalid. simpl.
  rewrite partition_content_StringText_eq. simpl.
  unfold Selection_partition. simpl.
  destruct (Nat.leb_spec (length (tr_selection transformation))
                         (length (replacements transformation))) as [Hle|Hlt].
  - destruct (replace_runs_spliced self (replacements transformation)
                (tr_selection transformation) 0 0%nat) as (pieces & Hp & Hc); [simpl; lia|].
    change (Z.of_nat 0) with 0 in Hp. rewrite Hp. simpl. now rewrite Hc.
  - pose proof (replace_runs_too_few self (replacements transformation)
                  (tr_selection transformation) 0 0%nat) as Hf.
    change (Z.of_nat 0) with 0 in Hf. rewrite Hf by (simpl; lia). reflexivity.
Qed.

Lemma spliced_surplus (text : str) : forall sel pos repls extra,
  (length sel <= length repls)%nat ->
  spliced text pos sel (repls ++ extra) = spliced text pos sel repls.
Proof.
  induction sel as [|[b e] sel IH]; intros pos repls extra Hlen; simpl; [reflexivity|].
  destruct repls as [|r repls]; simpl in *; [lia|].
  rewrite IH by lia. reflexivity.
Qed.

Lemma ascending_from_stop : forall sel pos stop,
  ascending_from pos sel stop = true -> pos <= stop.
Proof.
  induction sel as [|[b e] sel IH]; intros pos stop H; simpl in H.
  - now apply Z.leb_le.
  - rewrite !andb_true_iff, !Z.leb_le in H. destruct H as [[? ?] H].
    apply IH in H. lia.
Qed.

Lemma spliced_own_content (text : str) : forall sel pos,
  0 <= pos ->
  ascending_from pos sel (len text) = true ->
  spliced text pos sel (map (StringText_getitem_interval text) sel)
  = py_slice text pos (len text).
Proof.
  induction sel as [|[b e] sel IH]; intros pos Hpos Hasc; simpl in *; [reflexivity|].
  rewrite !andb_true_iff, !Z.leb_le in Hasc. destruct Hasc as [[H1 H2] H3].
  rewrite IH by (lia || assumption).
  pose proof (ascending_from_stop _ _ _ H3) as He.
  rewrite (py_slice_app text b e (len text)) by lia.
  apply py_slice_app; lia.
Qed.

Lemma transform_stale (self : StringText) (transformation : Transformation) :
  map (StringText_getitem_interval self) (tr_selection transformation)
    <> original_content transformation
  \/ validate transformation self = false ->
  StringText_transform self transformation = Raise StaleTransformation.
Proof.
  intros H. unfold StringText_transform.
  rewrite Selection_content_StringText. simpl.
  destruct (decide (map (StringText_getitem_interval self) (tr_selection transformation)
                    = original_content transformation)) as [Heq|Hne].
  - destruct H as [H|H]; [contradiction|].
    rewrite bool_decide_eq_true_2 by exact Heq. simpl. now rewrite H.
  - now rewrite bool_decide_eq_false_2 by exact Hne.
Qed.

(** [StringText.transform] returns a text exactly when the selection
    addresses the recorded original content, the validation hook
    accepts, and there is a replacement for every selected interval; the
    text is then the old one with each selected interval replaced, in
    order, by its replacement. *)
Theorem transform_splices (self : StringText) (transformation : Transformation)
    (new_text : StringText) :
  StringText_transform self transformation = Ok new_text
  <-> map (StringText_getitem_interval self) (tr_selection transformation)
        = original_content transformation
      /\ validate transformation self = true
      /\ (length (tr_selection transformation)
          <= length (replacements transformation))%nat
      /\ new_text = spliced self 0 (tr_selection transformation)
                      (replacements transformation).
Proof.
  destruct (decide (map (StringText_getitem_interval self) (tr_selection transformation)
                    = original_content transformation)) as [Heq|Hne].
  2:{ rewrite transform_stale by now left. split; [discriminate|tauto]. }
  destruct (validate transformation self) eqn:Hv.
  2:{ rewrite transform_stale by now right. split; [discriminate|].
      intros (_ & ? & _). discriminate. }
  rewrite (transform_fresh self transformation Heq Hv).
  destruct (Nat.leb_spec (length (tr_selection transformation))
                         (length (replacements transformation))) as [Hle|Hlt].
  - split.
    + intros [= <-]. auto.
    + intros (_ & _ & _ & ->). reflexivity.
  - split; [discriminate|]. intros (_ & _ & ? & _). lia.
Qed.

(** Replacements beyond the number of selected intervals are never read. *)
Theorem transform_ignores_surplus (self : StringText) (sel : Selection)
    (orig repls extra : list str) (hook : str -> bool) :
  (length sel <= length repls)%nat ->
  StringText_transform self
    {| tr_selection := sel; original_content := orig;
       replacements := repls ++ extra; validate := hook |}
  = StringText_transform self
      {| tr_selection := sel; original_content := orig;
         replacements := repls; validate := hook |}.
Proof.
  intros Hlen.
  destruct (decide (map (StringText_getitem_interval self) sel = orig)) as [Heq|Hne].
  - destruct (hook self) eqn:Hhook.
    + rewrite !transform_fresh by assumption. simpl.
      rewrite length_app.
      destruct (Nat.leb_spec (length sel) (length repls + length extra)); [|lia].
      destruct (Nat.leb_spec (length sel) (length repls)); [|lia].
      now rewrite spliced_surplus.
    + unfold StringText_transform. rewrite !Selection_content_StringText. simpl.
      rewrite !bool_decide_eq_true_2 by exact Heq. simpl. rewrite !Hhook. reflexivity.
  - unfold StringText_transform. rewrite !Selection_content_StringText. simpl.
    rewrite !bool_decide_eq_false_2 by exact Hne. reflexivity.
Qed.

Lemma transform_ignores_surplus_witness :
  StringText_transform (py "hello world")
    {| tr_selection := [(0, 5)]; original_content := [py "hello"];
       replacements := [py "HELLO"] ++ [py "unused"]; validate := fun _ => true |}
  = StringText_transform (py "hello world")
      {| tr_selection := [(0, 5)]; original_content := [py "hello"];
         replacements := [py "HELLO"]; validate := fun _ => true |}.
Proof.
  apply (transform_ignores_surplus (py "hello world") [(0, 5)] [py "hello"]
           [py "HELLO"] [py "unused"] (fun _ => true)).
  simpl. lia.
Defined.

(** Replacing every selected interval by its own content gives the text
    back, when the intervals follow one another inside the text. *)
Theorem transform_own_content (self : StringText) (sel : Selection) (hook : str -> bool) :
  ascending_from 0 sel (len self) = true ->
  hook self = true ->
  StringText_transform self
    {| tr_selection := sel;
       original_content := map (StringText_getitem_interval self) sel;
       replacements := map (StringText_getitem_interval self) sel;
       validate := hook |}
  = Ok self.
Proof.
  intros Hasc Hhook. rewrite transform_fresh; [|reflexivity|exact Hhook]. simpl.
  rewrite length_map, Nat.leb_refl.
  rewrite spliced_own_content by (lia || assumption).
  now rewrite py_slice_all.
Qed.

Lemma transform_own_content_witness :
  StringText_transform (py "hello world")
    {| tr_selection := [(0, 5); (6, 6)];
       original_content := map (StringText_getitem_interval (py "hello world")) [(0, 5); (6, 6)];
       replacements := map (StringText_getitem_interval (py "hello world")) [(0, 5); (6, 6)];
       validate := fun _ => true |}
  = Ok (py "hello world").
Proof.
  apply (transform_own_content (py "hello world") [(0, 5); (6, 6)] (fun _ => true));
    reflexivity.
Defined.

(** ** [Session.content] *)

Lemma Session_content_consecutive (text : str) : forall l pos stop,
  0 <= pos -> consecutive pos l stop = true ->
  concat (Session_content text l) = py_slice text pos stop /\ pos <= stop.
Proof.
  induction l as [|[b e] l IH]; intros pos stop Hpos H; simpl in *.
  - apply Z.eqb_eq in H. subst. split; [|lia]. now rewrite py_slice_empty.
  - rewrite !andb_true_iff, Z.eqb_eq, Z.leb_le in H. destruct H as [[-> Hbe] H].
    destruct (IH e stop) as [-> Hle]; [lia|assumption|].
    split; [|lia]. apply py_slice_app; lia.
Qed.

(** The contents of intervals that cover the text one after the other
    join to the text. *)
Theorem Session_content_joins (text : str) (l : list Interval) :
  consecutive 0 l (len text) = true ->
  concat (Session_content text l) = text.
Proof.
  intros H. destruct (Session_content_consecutive text l 0 (len text)) as [-> _];
    [lia | assumption |]. apply py_slice_all.
Qed.

Lemma Session_content_joins_witness :
  concat (Session_content (py "hello world") [(0, 0); (0, 5); (5, 6); (6, 11)])
  = py "hello world".
Proof.
  apply (Session_content_joins (py "hello world") [(0, 0); (0, 5); (5, 6); (6, 11)]).
  reflexivity.
Defined.

(** ** Reading a windowed text *)

Lemma nth_error_slice_nat {A} (l : list A) (a b i : nat) :
  nth_error (slice_nat l a b) i
  = if (i <? b - a)%nat then nth_error l (a + i) else None.
Proof. unfold slice_nat. now rewrite nth_error_firstn, nth_error_skipn. Qed.

(** On an object in the state of a windowed text, an integer position
    inside the window and the original text reads the character the
    original text has there; everywhere else the lookup is an
    [IndexError]. *)
Theorem PartialText_getitem_int_spec (self : PartialText) (item : Z) :
  windowed self ->
  PartialText_getitem_int self item
  = if (beg self <=? item) && (item <? Z.min (end_ self) (len (origin self)))
    then StringText_getitem_int (origin self) item
    else Raise IndexError.
Proof.
  intros Hself. apply windowed_state in Hself as [[Hbeg Hle] Hself].
  destruct self as [w text wbeg wend]. simpl in *. injection Hself as ->.
  unfold PartialText_getitem_int, PartialText_contains_int. simpl.
  destruct (Z.leb_spec wbeg item) as [H1|H1]; simpl; [|reflexivity].
  destruct (Z.leb_spec item wend) as [H2|H2]; simpl.
  2:{ destruct (Z.ltb_spec item (Z.min wend (len text))); [lia | reflexivity]. }
  unfold StringText_getitem_int.
  rewrite <- (Z2Nat.id (item - wbeg)) by lia.
  rewrite <- (Z2Nat.id item) at 3 by lia.
  rewrite !py_index_of_nat.
  rewrite py_slice_nonneg, nth_error_slice_nat by lia.
  unfold len.
  destruct (Nat.ltb_spec (Z.to_nat (item - wbeg)) (Z.to_nat wend - Z.to_nat wbeg)) as [H3|H3].
  - replace (Z.to_nat wbeg + Z.to_nat (item - wbeg))%nat with (Z.to_nat item) by lia.
    destruct (Z.ltb_spec item (Z.min wend (Z.of_nat (length text)))) as [H4|H4];
      [reflexivity|].
    assert (Hnone : nth_error text (Z.to_nat item) = None) by (apply nth_error_None; lia).
    now rewrite Hnone.
  - destruct (Z.ltb_spec item (Z.min wend (Z.of_nat (length text)))); [lia | reflexivity].
Qed.

Lemma PartialText_getitem_int_spec_witness :
  PartialText_getitem_int digits_window 7
  = if (5 <=? 7) && (7 <? Z.min 10 (len (py "0123456789abc")))
    then StringText_getitem_int (py "0123456789abc") 7
    else Raise IndexError.
Proof.
  apply (PartialText_getitem_int_spec digits_window 7).
  split; [simpl; lia | reflexivity].
Defined.

(** On an object in the state of a windowed text, an interval inside
    the window reads the original text over the interval, with or
    without the fail-fast check. *)
Theorem PartialText_reads_origin_inside (self : PartialText) (b e : Z)
    (failfast : bool) :
  windowed self ->
  PartialText_contains_interval self (b, e) = true ->
  PartialText_getitem_interval self (b, e) failfast = Ok (py_slice (origin self) b e).
Proof.
  intros Hself Hin. apply windowed_state in Hself as [[Hbeg Hle] Hself].
  destruct self as [w text wbeg wend]. simpl in *. injection Hself as ->.
  unfold PartialText_contains_interval in Hin. simpl in Hin.
  rewrite !andb_true_iff, !Z.leb_le in Hin. destruct Hin as [[H1 H2] H3].
  transitivity (PartialText_getitem_interval
                  {| window := py_slice text wbeg wend; origin := text;
                     beg := wbeg; end_ := wend |} (b, e) false).
  - unfold PartialText_getitem_interval, PartialText_contains_interval. simpl.
    destruct (Z.leb_spec wbeg b); [|lia]. destruct (Z.leb_spec b e); [|lia].
    destruct (Z.leb_spec e wend); [|lia]. simpl. now rewrite andb_false_r.
  - rewrite getitem_interval_clamps by lia. f_equal. f_equal; lia.
Qed.

Lemma PartialText_reads_origin_inside_witness :
  PartialText_getitem_interval digits_window (6, 9) true
  = Ok (py_slice (py "0123456789abc") 6 9).
Proof.
  apply (PartialText_reads_origin_inside digits_window 6 9 true);
    [split; [simpl; lia | reflexivity] | reflexivity].
Defined.

Lemma PartialText_transform_outside_witness :
  PartialText_transform hello_window
    {| tr_selection := [(0, 2); (3, 7)]; original_content := [];
       replacements := []; validate := fun _ => true |}
  = Raise OutOfRange.
Proof.
  apply (PartialText_transform_outside hello_window).
  simpl. apply Exists_cons_tl, Exists_cons_hd. reflexivity.
Defined.

(** ** What the single pass builds *)

Section FitsInvariant.
Variables (otext : str) (obeg n : Z) (subs : list Substitution).
Hypothesis Hobeg : 0 <= obeg.
Hypothesis Hn : 0 <= n.
Hypothesis Hdoc : obeg + n <= len otext.

(** A property of the scan state and of the substitutions still to be
    merged, kept by the three ways the loop body changes the state. *)
Variable P : scan -> list Substitution -> Prop.

Hypothesis P_text_before : forall st sbeg send replacement rest,
  scan_inv obeg n subs st (((sbeg, send), replacement) :: rest) ->
  P st (((sbeg, send), replacement) :: rest) ->
  opos st < sbeg -> opos st < obeg + n ->
  P (add_text otext (sbeg - opos st) st) (((sbeg, send), replacement) :: rest).

Hypothesis P_text_last : forall st,
  scan_inv obeg n subs st [] -> P st [] -> opos st < obeg + n ->
  P (add_text otext (n - (opos st - obeg)) st) [].

Hypothesis P_concealed : forall st sbeg send replacement rest,
  scan_inv obeg n subs st (((sbeg, send), replacement) :: rest) ->
  P st (((sbeg, send), replacement) :: rest) ->
  opos st = sbeg -> sbeg < obeg + n ->
  P (add_concealed sbeg send replacement st) rest.

Lemma scan_loop_fits_inv (rest : list Substitution) : forall st fuel,
  scan_inv obeg n subs st rest -> P st rest ->
  (2 * length rest + 1 <= fuel)%nat ->
  exists st' rest',
    scan_loop fuel otext obeg n subs st = Done (Ok st')
    /\ scan_inv obeg n subs st' rest' /\ P st' rest' /\ opos st' = obeg + n.
Proof using Hobeg Hn Hdoc P_text_before P_text_last P_concealed.
  induction rest as [|[[sbeg send] replacement] rest IH]; intros st fuel Hinv HP Hfuel.
  - destruct fuel as [|fuel]; [simpl in Hfuel; lia|].
    rewrite scan_loop_eq.
    pose proof (inv_opos _ _ _ _ _ Hinv) as Hopos.
    destruct (Z.ltb_spec (opos st) (obeg + n)) as [Hlt|Hge].
    + rewrite skipn_nth_error, (inv_rest _ _ _ _ _ Hinv). simpl.
      rewrite Z.min_l by lia.
      exists (add_text otext (n - (opos st - obeg)) st), [].
      split; [reflexivity|]. split; [|split].
      * apply add_text_inv; try assumption; try lia. reflexivity.
      * now apply P_text_last.
      * simpl. lia.
    + exists st, []. split; [reflexivity|]. split; [assumption|]. split; [assumption|lia].
  - assert (Hconceal : forall st1 fuel1,
              scan_inv obeg n subs st1 (((sbeg, send), replacement) :: rest) ->
              P st1 (((sbeg, send), replacement) :: rest) ->
              opos st1 = sbeg -> (2 * length rest + 2 <= fuel1)%nat ->
              exists st' rest',
                scan_loop fuel1 otext obeg n subs st1 = Done (Ok st')
                /\ scan_inv obeg n subs st' rest' /\ P st' rest'
                /\ opos st' = obeg + n).
    { intros st1 fuel1 Hinv1 HP1 Hat Hfuel1.
      destruct fuel1 as [|fuel1]; [lia|].
      rewrite scan_loop_eq.
      pose proof (inv_opos _ _ _ _ _ Hinv1) as Hopos.
      destruct (Z.ltb_spec (opos st1) (obeg + n)) as [Hlt|Hge].
      - rewrite skipn_nth_error, (inv_rest _ _ _ _ _ Hinv1). simpl.
        destruct (Z.gtb_spec sbeg (opos st1)) as [?|_]; [lia|].
        apply IH; [now apply add_concealed_inv | apply P_concealed; auto; lia | lia].
      - exists st1, (((sbeg, send), replacement) :: rest).
        split; [reflexivity|]. split; [assumption|]. split; [assumption|lia]. }
    pose proof (inv_fits _ _ _ _ _ Hinv) as Hf. simpl in Hf.
    rewrite !andb_true_iff, !Z.leb_le in Hf.
    destruct Hf as [[[[H1 H2] H3] H4] H5].
    destruct (Z_lt_le_dec (opos st) sbeg) as [Hbefore|Hat].
    + destruct fuel as [|fuel]; [lia|].
      rewrite scan_loop_eq.
      destruct (Z.ltb_spec (opos st) (obeg + n)) as [Hlt|Hge]; [|lia].
      rewrite skipn_nth_error, (inv_rest _ _ _ _ _ Hinv). simpl.
      destruct (Z.gtb_spec sbeg (opos st)) as [_|?]; [|lia].
      rewrite Z.min_l by lia.
      apply (Hconceal (add_text otext (sbeg - opos st) st) fuel);
        [| |simpl; lia|simpl in Hfuel; lia].
      * apply add_text_inv; [assumption|assumption|assumption|assumption|lia|lia|].
        simpl. rewrite !andb_true_iff, !Z.leb_le.
        repeat split; try lia.
        replace (opos st + (sbeg - opos st)) with sbeg by lia.
        replace (vpos st + (sbeg - opos st) + (sbeg - sbeg) + len replacement)
          with (vpos st + (sbeg - opos st) + len replacement) by lia.
        exact H5.
      * now apply P_text_before.
    + apply Hconceal; [assumption|assumption|lia|simpl in Hfuel; lia].
Qed.

End FitsInvariant.

(** The single pass under [fits], with a property the scan keeps. *)
Lemma single_pass_fits_inv (d : Document) (obeg n : Z) (fuel : nat)
    (P : scan -> list Substitution -> Prop) :
  let otext := doc_text d in
  let subs := relevant_substitutions (doc_conceal d) obeg n in
  0 <= obeg -> 0 <= n -> obeg + n <= len otext ->
  fits obeg n obeg 0 subs = true ->
  (2 * length subs + 1 <= fuel)%nat ->
  (forall st sbeg send replacement rest,
     scan_inv obeg n subs st (((sbeg, send), replacement) :: rest) ->
     P st (((sbeg, send), replacement) :: rest) ->
     opos st < sbeg -> opos st < obeg + n ->
     P (add_text otext (sbeg - opos st) st) (((sbeg, send), replacement) :: rest)) ->
  (forall st,
     scan_inv obeg n subs st [] -> P st [] -> opos st < obeg + n ->
     P (add_text otext (n - (opos st - obeg)) st) []) ->
  (forall st sbeg send replacement rest,
     scan_inv obeg n subs st (((sbeg, send), replacement) :: rest) ->
     P st (((sbeg, send), replacement) :: rest) ->
     opos st = sbeg -> sbeg < obeg + n ->
     P (add_concealed sbeg send replacement st) rest) ->
  P (scan_start obeg) subs ->
  exists st' rest',
    _compute_text_from_orig_interval fuel d obeg n
    = Done (Ok (concat (vtext_builder st'),
                opos_to_vpos st' ++ [len (concat (vtext_builder st'))],
                vpos_to_opos st' ++ [n]))
    /\ scan_inv obeg n subs st' rest' /\ P st' rest' /\ opos st' = obeg + n.
Proof.
  intros otext subs Hobeg Hn Hdoc Hfits Hfuel H1 H2 H3 Hstart.
  unfold _compute_text_from_orig_interval. fold otext subs.
  destruct (scan_loop_fits_inv otext obeg n subs Hobeg Hn Hdoc P H1 H2 H3 subs
              (scan_start obeg) fuel) as (st' & rest' & -> & Hinv & HP & Hend);
    [| exact Hstart | exact Hfuel |].
  - constructor; simpl; try exact Hfits; try reflexivity; unfold len; simpl; lia.
  - exists st', rest'. split; [reflexivity|]. split; [assumption|]. split; assumption.
Qed.

Lemma scan_inv_rest_nil (obeg n : Z) (subs : list Substitution) (st : scan)
    (rest : list Substitution) :
  begin_before (obeg + n) subs = true ->
  scan_inv obeg n subs st rest -> opos st = obeg + n -> rest = [].
Proof.
  intros Hbefore Hinv Hend. destruct rest as [|[[sbeg send] replacement] rest]; [reflexivity|].
  exfalso.
  pose proof (inv_fits _ _ _ _ _ Hinv) as Hf. simpl in Hf.
  rewrite !andb_true_iff, !Z.leb_le in Hf. destruct Hf as [[[[H1 _] _] _] _].
  assert (Hin : In ((sbeg, send), replacement) subs).
  { rewrite <- (firstn_skipn (subst_index st) subs), (inv_rest _ _ _ _ _ Hinv).
    apply in_or_app. right. now left. }
  unfold begin_before in Hbefore. rewrite forallb_forall in Hbefore.
  apply Hbefore in Hin. simpl in Hin. apply Z.ltb_lt in Hin. lia.
Qed.

(** The view text of the single pass is the original text of the range
    with every substitution interval replaced by its replacement. *)
Theorem single_pass_text (d : Document) (obeg n : Z) (fuel : nat) :
  0 <= obeg -> 0 <= n -> obeg + n <= len (doc_text d) ->
  fits obeg n obeg 0 (relevant_substitutions (doc_conceal d) obeg n) = true ->
  begin_before (obeg + n) (relevant_substitutions (doc_conceal d) obeg n) = true ->
  (2 * length (relevant_substitutions (doc_conceal d) obeg n) + 1 <= fuel)%nat ->
  exists o2v v2o,
    _compute_text_from_orig_interval fuel d obeg n
    = Done (Ok (concealed_text (doc_text d) obeg (obeg + n)
                  (relevant_substitutions (doc_conceal d) obeg n),
                o2v, v2o)).
Proof.
  intros Hobeg Hn Hdoc Hfits Hbefore Hfuel.
  set (subs := relevant_substitutions (doc_conceal d) obeg n) in *.
  set (otext := doc_text d) in *.
  destruct (single_pass_fits_inv d obeg n fuel
              (fun st rest =>
                 concat (vtext_builder st) ++ concealed_text otext (opos st) (obeg + n) rest
                 = concealed_text otext obeg (obeg + n) subs))
    as (st' & rest' & Hrun & Hinv & HP & Hend); try assumption.
  - intros st sbeg send replacement rest Hinv HP Hlt _.
    pose proof (inv_opos _ _ _ _ _ Hinv) as Hopos.
    rewrite <- HP. simpl.
    rewrite concat_app. simpl. rewrite app_nil_r.
    replace (opos st + (sbeg - opos st)) with sbeg by lia.
    rewrite (py_slice_empty otext sbeg) by lia. simpl.
    now rewrite <- app_assoc.
  - intros st Hinv HP Hlt.
    pose proof (inv_opos _ _ _ _ _ Hinv) as Hopos.
    rewrite <- HP. simpl.
    rewrite concat_app. simpl. rewrite app_nil_r.
    replace (opos st + (n - (opos st - obeg))) with (obeg + n) by lia.
    rewrite (py_slice_empty otext (obeg + n)) by lia.
    now rewrite app_nil_r.
  - intros st sbeg send replacement rest Hinv HP Hat _.
    pose proof (inv_opos _ _ _ _ _ Hinv) as Hopos.
    rewrite <- HP. simpl.
    rewrite concat_app. simpl. rewrite app_nil_r.
    replace (opos st + (send - sbeg)) with send by lia.
    rewrite Hat, (py_slice_empty otext sbeg) by lia. simpl.
    now rewrite <- app_assoc.
  - reflexivity.
  - rewrite Hrun.
    pose proof (scan_inv_rest_nil _ _ _ _ _ Hbefore Hinv Hend) as ->.
    simpl in HP. rewrite Hend, py_slice_empty, app_nil_r in HP by lia.
    rewrite HP. eauto.
Qed.

Lemma single_pass_text_witness :
  exists o2v v2o,
    _compute_text_from_orig_interval 3 abcdef_doc 0 6
    = Done (Ok (concealed_text (doc_text abcdef_doc) 0 (0 + 6)
                  (relevant_substitutions (doc_conceal abcdef_doc) 0 6),
                o2v, v2o)).
Proof.
  apply (single_pass_text abcdef_doc 0 6 3);
    first [reflexivity | vm_compute; congruence | vm_compute; lia].
Defined.

(** ** Order of the mappings *)

Lemma py_range_nil (a b : Z) : b <= a -> py_range a b = [].
Proof. intros H. unfold py_range. now replace (Z.to_nat (b - a)) with 0%nat by lia. Qed.

Lemma py_range_cons (a b : Z) : a < b -> py_range a b = a :: py_range (a + 1) b.
Proof.
  intros H. unfold py_range.
  replace (Z.to_nat (b - a)) with (S (Z.to_nat (b - (a + 1)))) by lia.
  simpl. f_equal; [lia|].
  rewrite <- seq_shift, map_map. apply map_ext. intros k. lia.
Qed.

Lemma py_range_ind (P : Z -> list Z -> Prop) (b : Z) :
  (forall a, b <= a -> P a []) ->
  (forall a, a < b -> P (a + 1) (py_range (a + 1) b) -> P a (a :: py_range (a + 1) b)) ->
  forall a, P a (py_range a b).
Proof.
  intros Hnil Hcons a.
  remember (Z.to_nat (b - a)) as k eqn:Hk. revert a Hk.
  induction k as [|k IH]; intros a Hk.
  - rewrite py_range_nil by lia. apply Hnil. lia.
  - rewrite py_range_cons by lia. apply Hcons; [lia|]. apply IH. lia.
Qed.

Lemma py_range_bounds (a b : Z) : Forall (fun x => a <= x < b) (py_range a b).
Proof.
  revert a. apply (py_range_ind (fun a l => Forall (fun x => a <= x < b) l)).
  - constructor.
  - intros a Hlt IH. constructor; [lia|].
    eapply Forall_impl; [exact IH|]. simpl. intros; lia.
Qed.

Lemma py_range_sorted (a b : Z) : StronglySorted Z.le (py_range a b).
Proof.
  revert a. apply (py_range_ind (fun a l => StronglySorted Z.le l)).
  - constructor.
  - intros a Hlt IH. constructor; [exact IH|].
    eapply Forall_impl; [apply py_range_bounds|]. simpl. intros; lia.
Qed.

Lemma repeat_all {A} (m : nat) (x : A) : Forall (fun y => y = x) (repeat x m).
Proof. induction m; simpl; constructor; auto. Qed.

Lemma py_repeat_all {A} (k : Z) (x : A) : Forall (fun y => y = x) (py_repeat k x).
Proof. apply repeat_all. Qed.

Lemma py_repeat_sorted (k x : Z) : StronglySorted Z.le (py_repeat k x).
Proof.
  unfold py_repeat. induction (Z.to_nat k) as [|m IH]; simpl; constructor; [exact IH|].
  eapply Forall_impl; [apply repeat_all|]. simpl. intros; lia.
Qed.

Lemma sorted_app_between (l k : list Z) (m : Z) :
  StronglySorted Z.le l -> Forall (fun x => x <= m) l ->
  StronglySorted Z.le k -> Forall (fun x => m <= x) k ->
  StronglySorted Z.le (l ++ k).
Proof.
  intros Hl Hlm Hk Hkm. induction Hl as [|x l Hl IH Hx]; simpl; [exact Hk|].
  inversion Hlm; subst. constructor; [auto|].
  apply Forall_app. split; [exact Hx|].
  eapply Forall_impl; [exact Hkm|]. simpl. intros; lia.
Qed.

Lemma ordered_add_text (otext : str) (obeg n : Z) (st : scan) (k : Z) :
  0 <= k -> obeg <= opos st -> 0 <= vpos st -> opos st + k <= obeg + n ->
  ordered_mappings obeg n st -> ordered_mappings obeg n (add_text otext k st).
Proof.
  intros Hk Ho Hv Hend (S1 & B1 & S2 & B2). unfold ordered_mappings. simpl.
  repeat split.
  - apply (sorted_app_between _ _ (vpos st)); [assumption| |apply py_range_sorted|].
    + eapply Forall_impl; [exact B1|]. simpl. intros; lia.
    + eapply Forall_impl; [apply py_range_bounds|]. simpl. intros; lia.
  - apply Forall_app. split.
    + eapply Forall_impl; [exact B1|]. simpl. intros; lia.
    + eapply Forall_impl; [apply py_range_bounds|]. simpl. intros; lia.
  - apply (sorted_app_between _ _ (opos st)); [assumption| |apply py_range_sorted|].
    + eapply Forall_impl; [exact B2|]. simpl. intros; lia.
    + eapply Forall_impl; [apply py_range_bounds|]. simpl. intros; lia.
  - apply Forall_app. split.
    + eapply Forall_impl; [exact B2|]. simpl. intros; lia.
    + eapply Forall_impl; [apply py_range_bounds|]. simpl. intros; lia.
Qed.

Lemma ordered_add_concealed (obeg n : Z) (st : scan) (sbeg send : Z) (r : str) :
  sbeg <= send -> obeg <= opos st -> opos st < obeg + n -> 0 <= vpos st ->
  ordered_mappings obeg n st ->
  ordered_mappings obeg n (add_concealed sbeg send r st).
Proof.
  intros Hse Ho Hlt Hv (S1 & B1 & S2 & B2). unfold ordered_mappings. simpl.
  pose proof (len_nonneg r) as Hr.
  repeat split.
  - apply (sorted_app_between _ _ (vpos st)); [assumption| |apply py_repeat_sorted|].
    + eapply Forall_impl; [exact B1|]. simpl. intros; lia.
    + eapply Forall_impl; [apply py_repeat_all|]. simpl. intros; lia.
  - apply Forall_app. split.
    + eapply Forall_impl; [exact B1|]. simpl. intros; lia.
    + eapply Forall_impl; [apply py_repeat_all|]. simpl. intros; lia.
  - apply (sorted_app_between _ _ (opos st)); [assumption| |apply py_repeat_sorted|].
    + eapply Forall_impl; [exact B2|]. simpl. intros; lia.
    + eapply Forall_impl; [apply py_repeat_all|]. simpl. intros; lia.
  - apply Forall_app. split.
    + eapply Forall_impl; [exact B2|]. simpl. intros; lia.
    + eapply Forall_impl; [apply py_repeat_all|]. simpl. intros; lia.
Qed.

(** Both mappings of the single pass ascend: the forward mapping, its
    sentinel included, through view positions up to the length of the
    view text, the reverse mapping through original positions of the
    range. *)
Theorem single_pass_mappings_ascend (d : Document) (obeg n : Z) (fuel : nat) :
  0 <= obeg -> 0 <= n -> obeg + n <= len (doc_text d) ->
  fits obeg n obeg 0 (relevant_substitutions (doc_conceal d) obeg n) = true ->
  (2 * length (relevant_substitutions (doc_conceal d) obeg n) + 1 <= fuel)%nat ->
  exists vtext o2v v2o,
    _compute_text_from_orig_interval fuel d obeg n
      = Done (Ok (vtext, o2v, v2o ++ [n]))
    /\ StronglySorted Z.le o2v
    /\ Forall (fun v => 0 <= v <= len vtext) o2v
    /\ StronglySorted Z.le v2o
    /\ Forall (fun p => obeg <= p < obeg + n) v2o.
Proof.
  intros Hobeg Hn Hdoc Hfits Hfuel.
  destruct (single_pass_fits_inv d obeg n fuel (fun st _ => ordered_mappings obeg n st))
    as (st' & rest' & Hrun & Hinv & (S1 & B1 & S2 & B2) & Hend); try assumption.
  - intros st sbeg send replacement rest Hinv HP Hlt Hguard.
    pose proof (inv_opos _ _ _ _ _ Hinv). pose proof (inv_vpos _ _ _ _ _ Hinv).
    pose proof (inv_fits _ _ _ _ _ Hinv) as Hf. simpl in Hf.
    rewrite !andb_true_iff, !Z.leb_le in Hf.
    apply ordered_add_text; try assumption; lia.
  - intros st Hinv HP Hlt.
    pose proof (inv_opos _ _ _ _ _ Hinv). pose proof (inv_vpos _ _ _ _ _ Hinv).
    apply ordered_add_text; try assumption; lia.
  - intros st sbeg send replacement rest Hinv HP Hat Hguard.
    pose proof (inv_opos _ _ _ _ _ Hinv). pose proof (inv_vpos _ _ _ _ _ Hinv).
    pose proof (inv_fits _ _ _ _ _ Hinv) as Hf. simpl in Hf.
    rewrite !andb_true_iff, !Z.leb_le in Hf.
    apply ordered_add_concealed; try assumption; lia.
  - repeat split; constructor.
  - rewrite Hrun. do 3 eexists. split; [reflexivity|].
    rewrite (inv_vtext _ _ _ _ _ Hinv).
    repeat split.
    + apply (sorted_app_between _ _ (vpos st')); try assumption.
      * eapply Forall_impl; [exact B1|]. simpl. intros; lia.
      * repeat constructor.
      * repeat constructor. lia.
    + apply Forall_app. split; [exact B1|]. repeat constructor.
      * apply (inv_vpos _ _ _ _ _ Hinv).
      * lia.
    + exact S2.
    + eapply Forall_impl; [exact B2|]. simpl. intros; lia.
Qed.

Lemma single_pass_mappings_ascend_witness :
  exists vtext o2v v2o,
    _compute_text_from_orig_interval 3 abcdef_doc 0 6
      = Done (Ok (vtext, o2v, v2o ++ [6]))
    /\ StronglySorted Z.le o2v
    /\ Forall (fun v => 0 <= v <= len vtext) o2v
    /\ StronglySorted Z.le v2o
    /\ Forall (fun p => 0 <= p < 0 + 6) v2o.
Proof.
  apply (single_pass_mappings_ascend abcdef_doc 0 6 3);
    first [reflexivity | vm_compute; congruence | vm_compute; lia].
Defined.

(** ** Positions through the two mappings *)

Lemma nth_error_py_range (a b : Z) (j : nat) :
  nth_error (py_range a b) j
  = if (j <? Z.to_nat (b - a))%nat then Some (a + Z.of_nat j) else None.
Proof.
  unfold py_range. rewrite nth_error_map, nth_error_seq.
  destruct (j <? Z.to_nat (b - a))%nat; reflexivity.
Qed.

Lemma nth_error_py_repeat {A} (k : Z) (x : A) (j : nat) :
  nth_error (py_repeat k x) j = if (j <? Z.to_nat k)%nat then Some x else None.
Proof.
  unfold py_repeat. destruct (Nat.ltb_spec j (Z.to_nat k)).
  - now apply nth_error_repeat.
  - apply nth_error_None. now rewrite repeat_length.
Qed.

Lemma nth_error_py_slice {A} (l : list A) (a k : Z) (j : nat) :
  0 <= a -> 0 <= k -> (j < Z.to_nat k)%nat ->
  nth_error (py_slice l a (a + k)) j = nth_error l (Z.to_nat a + j).
Proof.
  intros Ha Hk Hj. rewrite py_slice_nonneg, nth_error_slice_nat by lia.
  destruct (Nat.ltb_spec j (Z.to_nat (a + k) - Z.to_nat a)); [reflexivity | lia].
Qed.

Lemma py_index_nonneg {A} (l : list A) (i : Z) :
  0 <= i ->
  py_index l i
  = match nth_error l (Z.to_nat i) with Some x => Ok x | None => Raise IndexError end.
Proof. intros Hi. rewrite <- (Z2Nat.id i) at 1 by lia. apply py_index_of_nat. Qed.

Lemma nth_error_Some_lt {A} (l : list A) (i : nat) (x : A) :
  nth_error l i = Some x -> (i < length l)%nat.
Proof. intros H. apply nth_error_Some. congruence. Qed.

Lemma concealed_at_In (subs : list Substitution) (sbeg send : Z) (r : str) (p : Z) :
  In ((sbeg, send), r) subs -> sbeg <= p < send -> concealed_at subs p = true.
Proof.
  intros Hin Hp. unfold concealed_at. apply existsb_exists.
  exists ((sbeg, send), r). split; [assumption|]. simpl.
  apply andb_true_iff. split; [apply Z.leb_le | apply Z.ltb_lt]; lia.
Qed.

Lemma scan_inv_head_In (obeg n : Z) (subs : list Substitution) (st : scan)
    (s : Substitution) (rest : list Substitution) :
  scan_inv obeg n subs st (s :: rest) ->
  In s subs /\ firstn (S (subst_index st)) subs = firstn (subst_index st) subs ++ [s].
Proof.
  intros Hinv. pose proof (inv_rest _ _ _ _ _ Hinv) as Hrest. split.
  - rewrite <- (firstn_skipn (subst_index st) subs), Hrest.
    apply in_or_app. right. now left.
  - assert (Hn : nth_error subs (subst_index st) = Some s)
      by (now rewrite skipn_nth_error, Hrest).
    clear -Hn. revert Hn. generalize (subst_index st). 
    induction subs as [|y subs IH]; intros [|i]; simpl; try discriminate.
    + now intros [= ->].
    + intros H. f_equal. now apply IH.
Qed.

Lemma copied_old (otext : str) (obeg n : Z) (subs : list Substitution) (st : scan)
    (rest : list Substitution) (o2v' v2o' : list Z) (s : str) (k : nat) (v : Z) :
  scan_inv obeg n subs st rest ->
  copied_positions otext obeg subs st ->
  (k < length (opos_to_vpos st))%nat ->
  nth_error (opos_to_vpos st ++ o2v') k = Some v ->
  concealed_at subs (obeg + Z.of_nat k) = false ->
  0 <= v
  /\ nth_error (vpos_to_opos st ++ v2o') (Z.to_nat v) = Some (obeg + Z.of_nat k)
  /\ nth_error (concat (vtext_builder st ++ [s])) (Z.to_nat v)
     = nth_error otext (Z.to_nat (obeg + Z.of_nat k)).
Proof.
  intros Hinv HP Hk Hnth Hfree.
  rewrite nth_error_app1 in Hnth by exact Hk.
  destruct (HP k v Hnth Hfree) as (Hv & Hback & Htext).
  pose proof (nth_error_Some_lt _ _ _ Hback) as Hlt.
  split; [exact Hv|]. split.
  - now rewrite nth_error_app1.
  - rewrite concat_app. simpl. rewrite app_nil_r, nth_error_app1; [exact Htext|].
    pose proof (inv_v2o _ _ _ _ _ Hinv). pose proof (inv_vtext _ _ _ _ _ Hinv).
    unfold len in *. lia.
Qed.

Lemma copied_add_text (otext : str) (obeg n : Z) (subs : list Substitution)
    (st : scan) (rest : list Substitution) (k : Z) :
  0 <= obeg -> 
  scan_inv obeg n subs st rest -> 0 <= k ->
  copied_positions otext obeg subs st ->
  copied_positions otext obeg subs (add_text otext k st).
Proof.
  intros Hobeg Hinv Hk HP i v Hnth Hfree. simpl in *.
  destruct (Nat.lt_ge_cases i (length (opos_to_vpos st))) as [Hold|Hnew].
  - eapply copied_old; eassumption.
  - rewrite nth_error_app2, nth_error_py_range in Hnth by exact Hnew.
    pose proof (inv_o2v _ _ _ _ _ Hinv) as Ho. pose proof (inv_v2o _ _ _ _ _ Hinv) as Hv.
    pose proof (inv_vtext _ _ _ _ _ Hinv) as Ht. pose proof (inv_vpos _ _ _ _ _ Hinv) as Hp.
    pose proof (inv_opos _ _ _ _ _ Hinv) as Hopos.
    unfold len in *.
    set (j := (i - length (opos_to_vpos st))%nat) in *.
    destruct (Nat.ltb_spec j (Z.to_nat (vpos st + k - vpos st))) as [Hj|Hj];
      [|discriminate].
    injection Hnth as <-.
    assert (Hi : obeg + Z.of_nat i = opos st + Z.of_nat j) by lia.
    split; [lia|]. split.
    + replace (Z.to_nat (vpos st + Z.of_nat j)) with (length (vpos_to_opos st) + j)%nat by lia.
      rewrite nth_error_app2 by lia.
      replace (length (vpos_to_opos st) + j - length (vpos_to_opos st))%nat with j by lia.
      rewrite nth_error_py_range.
      destruct (Nat.ltb_spec j (Z.to_nat (opos st + k - opos st))); [|lia].
      f_equal. lia.
    + rewrite concat_app. simpl. rewrite app_nil_r.
      replace (Z.to_nat (vpos st + Z.of_nat j))
        with (length (concat (vtext_builder st)) + j)%nat by lia.
      rewrite nth_error_app2 by lia.
      replace (length (concat (vtext_builder st)) + j - length (concat (vtext_builder st)))%nat
        with j by lia.
      rewrite nth_error_py_slice by lia. f_equal. lia.
Qed.

Lemma copied_add_concealed (otext : str) (obeg n : Z) (subs : list Substitution)
    (st : scan) (sbeg send : Z) (r : str) (rest : list Substitution) :
  scan_inv obeg n subs st (((sbeg, send), r) :: rest) ->
  opos st = sbeg ->
  copied_positions otext obeg subs st ->
  copied_positions otext obeg subs (add_concealed sbeg send r st).
Proof.
  intros Hinv Hat HP i v Hnth Hfree. simpl in *.
  destruct (Nat.lt_ge_cases i (length (opos_to_vpos st))) as [Hold|Hnew].
  - eapply copied_old; eassumption.
  - exfalso.
    rewrite nth_error_app2, nth_error_py_repeat in Hnth by exact Hnew.
    destruct (Nat.ltb_spec (i - length (opos_to_vpos st)) (Z.to_nat (send - sbeg)));
      [|discriminate].
    pose proof (inv_o2v _ _ _ _ _ Hinv) as Ho. unfold len in Ho.
    destruct (scan_inv_head_In _ _ _ _ _ _ Hinv) as [Hin _].
    rewrite (concealed_at_In subs sbeg send r) in Hfree; [discriminate|assumption|lia].
Qed.

(** An original position of the range outside every substitution keeps
    its character: the forward mapping gives a view position at which the
    view text has the character of the original text, and from which the
    reverse mapping leads back. *)
Theorem single_pass_round_trip (d : Document) (obeg n : Z) (fuel : nat) :
  0 <= obeg -> 0 <= n -> obeg + n <= len (doc_text d) ->
  fits obeg n obeg 0 (relevant_substitutions (doc_conceal d) obeg n) = true ->
  (2 * length (relevant_substitutions (doc_conceal d) obeg n) + 1 <= fuel)%nat ->
  exists vtext o2v v2o,
    _compute_text_from_orig_interval fuel d obeg n = Done (Ok (vtext, o2v, v2o))
    /\ forall k, 0 <= k < n ->
         concealed_at (relevant_substitutions (doc_conceal d) obeg n) (obeg + k) = false ->
         exists v, py_index o2v k = Ok v
                   /\ py_index v2o v = Ok (obeg + k)
                   /\ py_index vtext v = py_index (doc_text d) (obeg + k).
Proof.
  intros Hobeg Hn Hdoc Hfits Hfuel.
  set (subs := relevant_substitutions (doc_conceal d) obeg n) in *.
  destruct (single_pass_fits_inv d obeg n fuel
              (fun st _ => copied_positions (doc_text d) obeg subs st))
    as (st' & rest' & Hrun & Hinv & HP & Hend); try assumption.
  - intros st sbeg send replacement rest Hinv HP Hlt _.
    eapply copied_add_text; try eassumption. lia.
  - intros st Hinv HP Hlt. pose proof (inv_opos _ _ _ _ _ Hinv).
    eapply copied_add_text; try eassumption. lia.
  - intros st sbeg send replacement rest Hinv HP Hat _.
    eapply copied_add_concealed; eassumption.
  - intros k v Hnth. destruct k; discriminate.
  - rewrite Hrun. do 3 eexists. split; [reflexivity|].
    intros k Hk Hfree.
    pose proof (inv_o2v _ _ _ _ _ Hinv) as Ho. unfold len in Ho.
    destruct (nth_error (opos_to_vpos st') (Z.to_nat k)) as [v|] eqn:Hnth.
    2:{ apply nth_error_None in Hnth. lia. }
    destruct (HP (Z.to_nat k) v Hnth) as (Hv & Hback & Htext).
    { rewrite Z2Nat.id by lia. exact Hfree. }
    rewrite Z2Nat.id in Hback, Htext by lia.
    exists v. rewrite !py_index_nonneg by lia.
    rewrite !nth_error_app1 by (eapply nth_error_Some_lt; eassumption).
    rewrite Hnth, Hback, Htext. repeat split.
Qed.

Lemma single_pass_round_trip_witness :
  exists vtext o2v v2o,
    _compute_text_from_orig_interval 3 abcdef_doc 0 6 = Done (Ok (vtext, o2v, v2o))
    /\ forall k, 0 <= k < 6 ->
         concealed_at (relevant_substitutions (doc_conceal abcdef_doc) 0 6) (0 + k) = false ->
         exists v, py_index o2v k = Ok v
                   /\ py_index v2o v = Ok (0 + k)
                   /\ py_index vtext v = py_index (doc_text abcdef_doc) (0 + k).
Proof.
  apply (single_pass_round_trip abcdef_doc 0 6 3);
    first [reflexivity | vm_compute; congruence | vm_compute; lia].
Defined.

(** ** Collapse onto the anchors *)

Lemma collapsed_old (obeg n : Z) (subs : list Substitution) (st : scan)
    (rest : list Substitution) (o2v' v2o' : list Z) (s : str)
    (sbeg send : Z) (r : str) (v : Z) :
  scan_inv obeg n subs st rest ->
  0 <= v
  /\ (forall k : nat, sbeg <= obeg + Z.of_nat k < send ->
        nth_error (opos_to_vpos st) k = Some v)
  /\ (forall j : nat, (j < length r)%nat ->
        nth_error (vpos_to_opos st) (Z.to_nat v + j) = Some sbeg
        /\ nth_error (concat (vtext_builder st)) (Z.to_nat v + j) = nth_error r j) ->
  0 <= v
  /\ (forall k : nat, sbeg <= obeg + Z.of_nat k < send ->
        nth_error (opos_to_vpos st ++ o2v') k = Some v)
  /\ (forall j : nat, (j < length r)%nat ->
        nth_error (vpos_to_opos st ++ v2o') (Z.to_nat v + j) = Some sbeg
        /\ nth_error (concat (vtext_builder st ++ [s])) (Z.to_nat v + j) = nth_error r j).
Proof.
  intros Hinv (Hv & Hfwd & Hback). split; [exact Hv|]. split.
  - intros k Hk. specialize (Hfwd k Hk).
    rewrite nth_error_app1; [exact Hfwd | eapply nth_error_Some_lt; eassumption].
  - intros j Hj. destruct (Hback j Hj) as [Hb Ht].
    pose proof (nth_error_Some_lt _ _ _ Hb) as Hlt.
    split.
    + now rewrite nth_error_app1.
    + rewrite concat_app. simpl. rewrite app_nil_r, nth_error_app1; [exact Ht|].
      pose proof (inv_v2o _ _ _ _ _ Hinv). pose proof (inv_vtext _ _ _ _ _ Hinv).
      unfold len in *. lia.
Qed.

Lemma collapsed_add_text (otext : str) (obeg n : Z) (subs : list Substitution)
    (st : scan) (rest : list Substitution) (k : Z) :
  scan_inv obeg n subs st rest ->
  collapsed obeg subs st -> collapsed obeg subs (add_text otext k st).
Proof.
  intros Hinv HP sbeg send r Hin. simpl in *.
  destruct (HP sbeg send r Hin) as (v & Hv).
  exists v. eapply collapsed_old; eassumption.
Qed.

Lemma collapsed_add_concealed (obeg n : Z) (subs : list Substitution)
    (st : scan) (sbeg send : Z) (r : str) (rest : list Substitution) :
  scan_inv obeg n subs st (((sbeg, send), r) :: rest) ->
  opos st = sbeg ->
  collapsed obeg subs st -> collapsed obeg subs (add_concealed sbeg send r st).
Proof.
  intros Hinv Hat HP sb se r' Hin. simpl in *.
  destruct (scan_inv_head_In _ _ _ _ _ _ Hinv) as [_ Hfirst].
  rewrite Hfirst in Hin. apply in_app_or in Hin as [Hin|Hin].
  - destruct (HP sb se r' Hin) as (v & Hv).
    exists v. eapply collapsed_old; eassumption.
  - destruct Hin as [[= <- <- <-]|[]].
    pose proof (inv_o2v _ _ _ _ _ Hinv) as Ho. pose proof (inv_v2o _ _ _ _ _ Hinv) as Hv.
    pose proof (inv_vtext _ _ _ _ _ Hinv) as Ht. pose proof (inv_vpos _ _ _ _ _ Hinv) as Hp.
    unfold len in *.
    exists (vpos st). split; [exact Hp|]. split.
    + intros k Hk. rewrite nth_error_app2 by lia.
      rewrite nth_error_py_repeat.
      destruct (Nat.ltb_spec (k - length (opos_to_vpos st)) (Z.to_nat (send - sbeg)));
        [reflexivity | lia].
    + intros j Hj. split.
      * rewrite nth_error_app2 by lia.
        rewrite nth_error_py_repeat. unfold len.
        destruct (Nat.ltb_spec (Z.to_nat (vpos st) + j - length (vpos_to_opos st))
                    (Z.to_nat (Z.of_nat (length r)))); [congruence | lia].
      * rewrite concat_app. simpl. rewrite app_nil_r.
        rewrite nth_error_app2 by lia. f_equal. lia.
Qed.

(** Every substitution of the range collapses onto its anchors: the
    forward mapping sends all original positions of its interval to the
    view position where its replacement begins, the reverse mapping sends
    every view position of the replacement to the begin of the interval,
    and the view text has the replacement there. *)
Theorem single_pass_collapse (d : Document) (obeg n : Z) (fuel : nat) :
  0 <= obeg -> 0 <= n -> obeg + n <= len (doc_text d) ->
  fits obeg n obeg 0 (relevant_substitutions (doc_conceal d) obeg n) = true ->
  begin_before (obeg + n) (relevant_substitutions (doc_conceal d) obeg n) = true ->
  (2 * length (relevant_substitutions (doc_conceal d) obeg n) + 1 <= fuel)%nat ->
  exists vtext o2v v2o,
    _compute_text_from_orig_interval fuel d obeg n = Done (Ok (vtext, o2v, v2o))
    /\ forall sbeg send r,
         In ((sbeg, send), r) (relevant_substitutions (doc_conceal d) obeg n) ->
         exists v,
           (forall k, 0 <= k -> sbeg <= obeg + k < send -> py_index o2v k = Ok v)
           /\ (forall j, 0 <= j < len r ->
                 py_index v2o (v + j) = Ok sbeg
                 /\ py_index vtext (v + j) = py_index r j).
Proof.
  intros Hobeg Hn Hdoc Hfits Hbefore Hfuel.
  set (subs := relevant_substitutions (doc_conceal d) obeg n) in *.
  destruct (single_pass_fits_inv d obeg n fuel (fun st _ => collapsed obeg subs st))
    as (st' & rest' & Hrun & Hinv & HP & Hend); try assumption.
  - intros st sbeg send replacement rest Hinv HP _ _.
    eapply collapsed_add_text; eassumption.
  - intros st Hinv HP _. eapply collapsed_add_text; eassumption.
  - intros st sbeg send replacement rest Hinv HP Hat _.
    eapply collapsed_add_concealed; eassumption.
  - intros sbeg send r []. 
  - rewrite Hrun. do 3 eexists. split; [reflexivity|].
    intros sbeg send r Hin.
    pose proof (scan_inv_rest_nil _ _ _ _ _ Hbefore Hinv Hend) as ->.
    assert (Hall : firstn (subst_index st') subs = subs).
    { pose proof (inv_rest _ _ _ _ _ Hinv) as Hrest. fold subs in Hrest.
      rewrite <- (firstn_skipn (subst_index st') subs) at 2.
      rewrite Hrest. now rewrite app_nil_r. }
    rewrite <- Hall in Hin.
    destruct (HP sbeg send r Hin) as (v & Hv & Hfwd & Hback).
    exists v. split.
    + intros k Hk Hin'. rewrite py_index_nonneg by lia.
      specialize (Hfwd (Z.to_nat k)). rewrite Z2Nat.id in Hfwd by lia.
      specialize (Hfwd Hin').
      rewrite nth_error_app1 by (eapply nth_error_Some_lt; eassumption).
      now rewrite Hfwd.
    + intros j Hj. unfold len in Hj.
      destruct (Hback (Z.to_nat j)) as [Hb Ht]; [lia|].
      rewrite !py_index_nonneg by lia.
      replace (Z.to_nat (v + j)) with (Z.to_nat v + Z.to_nat j)%nat by lia.
      rewrite nth_error_app1 by (eapply nth_error_Some_lt; eassumption).
      rewrite Hb, Ht. split; reflexivity.
Qed.

Lemma single_pass_collapse_witness :
  exists vtext o2v v2o,
    _compute_text_from_orig_interval 3 abcdef_doc 0 6 = Done (Ok (vtext, o2v, v2o))
    /\ forall sbeg send r,
         In ((sbeg, send), r) (relevant_substitutions (doc_conceal abcdef_doc) 0 6) ->
         exists v,
           (forall k, 0 <= k -> sbeg <= 0 + k < send -> py_index o2v k = Ok v)
           /\ (forall j, 0 <= j < len r ->
                 py_index v2o (v + j) = Ok sbeg
                 /\ py_index vtext (v + j) = py_index r j).
Proof.
  apply (single_pass_collapse abcdef_doc 0 6 3);
    first [reflexivity | vm_compute; congruence | vm_compute; lia].
Defined.

(** ** When the single pass does not return *)

(** A replacement at the begin of the range that is at least as long as
    the range, with text left before a further substitution: the bound on
    the view position leaves nothing to copy and the loop never ends. *)
Theorem single_pass_diverges (d : Document) (obeg n : Z)
    (send sbeg2 send2 : Z) (r r2 : str) (rest : list Substitution) (fuel : nat) :
  relevant_substitutions (doc_conceal d) obeg n
    = ((obeg, send), r) :: ((sbeg2, send2), r2) :: rest ->
  obeg <= send -> send < obeg + n -> send < sbeg2 -> n <= len r ->
  _compute_text_from_orig_interval fuel d obeg n = OutOfFuel.
Proof.
  intros Hsubs H1 H2 H3 H4. unfold _compute_text_from_orig_interval. rewrite Hsubs.
  assert (Hloop : scan_loop fuel (doc_text d) obeg n
                    (((obeg, send), r) :: ((sbeg2, send2), r2) :: rest) (scan_start obeg)
                  = OutOfFuel).
  { destruct fuel as [|fuel].
    - simpl. destruct (Z.ltb_spec obeg (obeg + n)); [reflexivity | lia].
    - rewrite scan_loop_eq. simpl.
      destruct (Z.ltb_spec obeg (obeg + n)); [|lia].
      destruct (Z.gtb_spec obeg obeg); [lia|].
      apply (scan_loop_stuck _ obeg n _ sbeg2 send2 r2); simpl; try reflexivity; lia. }
  now rewrite Hloop.
Qed.

Lemma single_pass_diverges_witness :
  _compute_text_from_orig_interval 100 tab_doc 0 4 = OutOfFuel.
Proof.
  apply (single_pass_diverges tab_doc 0 4 1 2 3 (py "    ") (py "    ") [] 100);
    first [reflexivity | vm_compute; congruence].
Defined.

(** ** Errors of the constructors *)

Lemma bind_Raise {A B} (r : result A) (k : A -> result B) (e : exn) :
  (r ≫= k) = Raise e -> r = Raise e \/ exists a, r = Ok a /\ k a = Raise e.
Proof. destruct r as [a|e']; simpl; [eauto | intros [= ->]; auto]. Qed.

Lemma fbind_Raise {A B} (c : fueled A) (k : A -> fueled B) (e : exn) :
  (c ≫= k) = Done (Raise e) ->
  c = Done (Raise e) \/ exists a, c = Done (Ok a) /\ k a = Done (Raise e).
Proof. destruct c as [[a|e']|]; simpl; [eauto | intros [= ->]; auto | discriminate]. Qed.

Lemma assert_Raise (b : bool) (msg : string) (e : exn) :
  assert_ b msg = Raise e -> e = AssertionError msg.
Proof. destruct b; simpl; congruence. Qed.

Lemma scan_loop_no_Raise (otext : str) (obeg n : Z) (subs : list Substitution) :
  forall fuel st e, scan_loop fuel otext obeg n subs st <> Done (Raise e).
Proof.
  induction fuel as [|fuel IH]; intros st e.
  - simpl. destruct (_ <? _); discriminate.
  - rewrite scan_loop_eq. destruct (_ <? _); [|discriminate].
    destruct (nth_error _ _) as [[[sbeg send] r]|]; [|discriminate].
    destruct (_ >? _); apply IH.
Qed.

(** The single pass raises nothing. *)
Lemma single_pass_no_Raise (fuel : nat) (d : Document) (obeg n : Z) (e : exn) :
  _compute_text_from_orig_interval fuel d obeg n <> Done (Raise e).
Proof.
  unfold _compute_text_from_orig_interval. intros H.
  apply fbind_Raise in H as [H|(st & _ & H)]; [|discriminate].
  now apply scan_loop_no_Raise in H.
Qed.

Lemma mkInterval_Raise (b e : Z) (x : exn) :
  mkInterval b e = Raise x -> x <> ValueError.
Proof.
  unfold mkInterval. intros H. apply bind_Raise in H as [H|(u & _ & H)]; [|discriminate].
  apply assert_Raise in H. subst. discriminate.
Qed.

Lemma py_index_not_ValueError {A} (l : list A) (i : Z) :
  py_index l i <> Raise ValueError.
Proof. intros H. apply py_index_Raise in H. discriminate. Qed.

Lemma assert_not_ValueError (b : bool) (msg : string) :
  assert_ b msg <> Raise ValueError.
Proof. intros H. apply assert_Raise in H. discriminate. Qed.

Ltac no_value_error H :=
  repeat match type of H with
  | (_ ≫= _) = Raise ValueError =>
      apply bind_Raise in H as [H|(? & _ & H)]
  | assert_ _ _ = Raise ValueError => now apply assert_not_ValueError in H
  | py_index _ _ = Raise ValueError => now apply py_index_not_ValueError in H
  | mkInterval _ _ = Raise ValueError => now apply mkInterval_Raise in H
  | Ok _ = Raise _ => discriminate H
  end.

Lemma highlight_loop_not_ValueError (self : TextView) (positions : list Z) :
  highlight_loop self positions <> Raise ValueError.
Proof.
  induction positions as [|i positions IH]; simpl; [discriminate|].
  intros H. no_value_error H. contradiction.
Qed.

Lemma post_not_ValueError (self : TextView) (sel : Selection) :
  _compute_selectionview_post self sel <> Raise ValueError.
Proof.
  induction sel as [|[vbeg vend] sel IH]; simpl; [discriminate|].
  intros H. no_value_error H. contradiction.
Qed.

Lemma project_interval_not_ValueError (self : TextView) (b e : Z) (acc : Selection)
    (i : Interval) :
  project_interval self b e acc i <> Raise ValueError.
Proof.
  unfold project_interval. destruct i as [beg end_].
  destruct (_ || _); [|discriminate].
  intros H. no_value_error H.
Qed.

Lemma selection_loop_not_ValueError (self : TextView) (b e : Z) :
  forall todo acc, selection_loop self b e todo acc <> Raise ValueError.
Proof.
  induction todo as [|i todo IH]; intros acc; simpl; [discriminate|].
  intros H. apply bind_Raise in H as [H|(? & _ & H)].
  - now apply project_interval_not_ValueError in H.
  - now apply IH in H.
Qed.

Lemma finish_view_not_ValueError (d : Document) (w : Z) (h : option Z) (off : Z)
    (r : str * list Z * list Z) :
  finish_view d w h off r <> Raise ValueError.
Proof.
  destruct r as [[t f] b]. unfold finish_view. intros H.
  apply bind_Raise in H as [H|(sel & _ & H)].
  - unfold _compute_selection, post in H.
    apply bind_Raise in H as [H|(sel & _ & H)].
    + no_value_error H. now apply selection_loop_not_ValueError in H.
    + no_value_error H. now apply post_not_ValueError in H.
  - apply bind_Raise in H as [H|(hl & _ & H)]; [|discriminate].
    now apply highlight_loop_not_ValueError in H.
Qed.

Section Errors.
Context {nav : Navigation}.

Lemma sample_loop_no_Raise (fuel : nat) (d : Document) (w h obeg : Z) :
  forall turns s probe e,
    sample_loop turns fuel d w h obeg s probe <> Done (Raise e).
Proof.
  induction turns as [|turns IH]; intros s probe e; simpl.
  - destruct (_ && _); discriminate.
  - destruct (_ && _); [|discriminate].
    intros H. apply fbind_Raise in H as [H|(p & _ & H)].
    + now apply single_pass_no_Raise in H.
    + now apply IH in H.
Qed.

Lemma snap_view_not_ValueError (w h s : Z) (probe : str * list Z * list Z) :
  snap_view w h s probe <> Raise ValueError.
Proof.
  destruct probe as [[vtext o2v] v2o]. unfold snap_view. intros H. no_value_error H.
Qed.

(** [for_screen] raises [ValueError] for a width or a height that is not
    positive and for an offset outside the text, and for nothing else;
    [for_entire_text] for a width that is not positive, and for nothing
    else. *)
Theorem constructors_ValueError (fuel : nat) (d : Document) (w h off : Z) :
  (for_screen fuel d w h off = Done (Raise ValueError)
   <-> w <= 0 \/ h <= 0 \/ off < 0 \/ len (doc_text d) < off)
  /\ (for_entire_text fuel d w = Done (Raise ValueError) <-> w <= 0).
Proof.
  split.
  - unfold for_screen.
    destruct (Z.leb_spec w 0) as [Hw|Hw]; [split; auto|].
    destruct (Z.leb_spec h 0) as [Hh|Hh]; [split; auto|].
    destruct (Z.ltb_spec off 0) as [Ho|Ho]; simpl; [split; auto|].
    destruct (Z.gtb_spec off (len (doc_text d))) as [Hl|Hl]; simpl;
      [split; auto; intros; right; right; right; lia|].
    split; [|lia]. intros H. exfalso.
    apply fbind_Raise in H as [H|(r & _ & H)].
    + unfold _compute_text_from_view_interval in H.
      destruct (_ =? 0); [discriminate|].
      destruct (Z.ltb_spec (len (doc_text d) - off) 0); [lia|].
      apply fbind_Raise in H as [H|(probe & _ & H)];
        [now apply single_pass_no_Raise in H|].
      apply fbind_Raise in H as [H|(first & _ & H)].
      { injection H as H. now apply py_index_not_ValueError in H. }
      apply fbind_Raise in H as [H|(u & _ & H)].
      { injection H as H. now apply assert_not_ValueError in H. }
      apply fbind_Raise in H as [H|([s probe'] & _ & H)];
        [now apply sample_loop_no_Raise in H|].
      injection H as H. now apply snap_view_not_ValueError in H.
    + injection H as H. now apply finish_view_not_ValueError in H.
  - unfold for_entire_text.
    destruct (Z.leb_spec w 0) as [Hw|Hw]; [split; auto|].
    split; [|lia]. intros H. exfalso.
    apply fbind_Raise in H as [H|(r & _ & H)].
    + now apply single_pass_no_Raise in H.
    + injection H as H. now apply finish_view_not_ValueError in H.
Qed.

End Errors.

(** ** Documents without substitutions *)

Lemma no_relevant_substitutions (c : Conceal) (obeg n : Z) :
  no_substitutions c -> relevant_substitutions c obeg n = [].
Proof.
  intros [Hglobal Hlocal]. unfold relevant_substitutions.
  rewrite Hglobal, Hlocal. reflexivity.
Qed.

Lemma py_range_snoc (a b : Z) : a <= b -> py_range a b ++ [b] = py_range a (b + 1).
Proof.
  intros H. unfold py_range.
  replace (Z.to_nat (b + 1 - a)) with (Z.to_nat (b - a) + 1)%nat by lia.
  rewrite seq_app, map_app. simpl. do 2 f_equal. lia.
Qed.

(** Without substitutions the single pass copies the range, one position
    to one position. *)
Lemma single_pass_plain (fuel : nat) (d : Document) (obeg n : Z) :
  no_substitutions (doc_conceal d) ->
  0 <= obeg -> 0 <= n -> obeg + n <= len (doc_text d) ->
  _compute_text_from_orig_interval (S fuel) d obeg n
  = Done (Ok (py_slice (doc_text d) obeg (obeg + n),
              py_range 0 (n + 1),
              py_range obeg (obeg + n) ++ [n])).
Proof.
  intros Hno Hobeg Hn Hdoc. unfold _compute_text_from_orig_interval.
  rewrite (no_relevant_substitutions _ _ _ Hno), scan_loop_eq. simpl.
  destruct (Z.ltb_spec obeg (obeg + n)) as [Hlt|Hge]; simpl.
  - rewrite Z.min_l by lia.
    replace (n - (obeg - obeg)) with n by lia.
    rewrite app_nil_r, len_py_slice_inside by lia.
    now rewrite Z.add_0_l, py_range_snoc by lia.
  - assert (n = 0) by lia. subst n.
    rewrite Z.add_0_r, py_slice_empty, (py_range_nil obeg obeg) by lia. reflexivity.
Qed.

Section Plain.
Context {nav : Navigation}.

Lemma sample_loop_plain (fuel : nat) (d : Document) (w h obeg : Z) :
  no_substitutions (doc_conceal d) -> 0 <= obeg ->
  forall turns s probe,
    1 <= s -> (Z.to_nat (len (doc_text d) - obeg - s) < turns)%nat ->
    exists r, sample_loop turns (S fuel) d w h obeg s probe = Done r.
Proof.
  intros Hno Hobeg. induction turns as [|turns IH]; intros s probe Hs Hturns; [lia|].
  rewrite sample_loop_eq.
  destruct (count_wrapped_lines _ _ <? h); simpl; [|eauto].
  destruct (Z.ltb_spec (obeg + s) (len (doc_text d))) as [Hlt|Hge]; [|eauto].
  unfold _compute_text_from_orig_interval.
  rewrite (no_relevant_substitutions _ _ _ Hno), scan_loop_eq. simpl.
  destruct (obeg <? obeg + s * 2); simpl; apply IH; lia.
Qed.

(** Without substitutions [for_screen] returns or raises, whatever the
    navigation functions: fuel for as many turns as the text has
    characters, and one more, is enough. *)
Theorem for_screen_plain_terminates (fuel : nat) (d : Document) (w h off : Z) :
  no_substitutions (doc_conceal d) ->
  (length (doc_text d) < fuel)%nat ->
  exists r, for_screen fuel d w h off = Done r.
Proof.
  intros Hno Hfuel. unfold for_screen.
  destruct (w <=? 0); [eauto|]. destruct (h <=? 0); [eauto|].
  destruct (Z.ltb_spec off 0) as [Ho|Ho]; simpl orb; cbv iota; [eauto|].
  destruct (off >? len (doc_text d)); [eauto|].
  unfold _compute_text_from_view_interval.
  destruct (Z.eqb_spec (len (doc_text d) - off) 0); [cbn [mbind mret fueled_bind fueled_ret]; eauto|].
  destruct (Z.ltb_spec (len (doc_text d) - off) 0); [cbn [mbind fueled_bind]; eauto|].
  destruct fuel as [|fuel]; [lia|].
  rewrite (single_pass_plain fuel d off 1) by (assumption || lia).
  cbn [mbind fueled_bind fst snd].
  destruct (py_index _ 0) as [first|e]; cbn [mbind fueled_bind]; [|eauto].
  destruct (assert_ _ _) as [u|e]; cbn [mbind fueled_bind]; [|eauto].
  destruct (sample_loop_plain fuel d w h off Hno Ho (S fuel) 1
              (py_slice (doc_text d) off (off + 1), py_range 0 (1 + 1),
               py_range off (off + 1) ++ [1])) as [r ->];
    [lia | unfold len; lia |].
  destruct r as [[s probe']|e]; cbn [mbind fueled_bind]; [|eauto].
  destruct (snap_view _ _ _ _); cbn [mbind fueled_bind]; eauto.
Qed.

End Plain.

Lemma for_screen_plain_terminates_witness :
  exists r,
    for_screen (nav := WrapModel.navigation) 7
      (make_doc (py "abcdef") [] [(1, 3)] ∅) 10 2 0 = Done r.
Proof.
  apply (for_screen_plain_terminates (nav := WrapModel.navigation) 7
           (make_doc (py "abcdef") [] [(1, 3)] ∅) 10 2 0).
  - split; reflexivity.
  - simpl. lia.
Defined.

(** ** The view of a plain document *)

Lemma py_index_py_range (a b i : Z) :
  0 <= i < b - a -> py_index (py_range a b) i = Ok (a + i).
Proof.
  intros Hi. rewrite py_index_nonneg, nth_error_py_range by lia.
  destruct (Nat.ltb_spec (Z.to_nat i) (Z.to_nat (b - a))); [|lia].
  f_equal. lia.
Qed.

Lemma py_index_last_py_range (n : Z) :
  0 <= n -> py_index (py_range 0 (n + 1)) (-1) = Ok n.
Proof.
  intros Hn. rewrite <- py_range_snoc by lia.
  unfold py_index. simpl.
  rewrite len_app. change (len [n]) with 1.
  pose proof (len_nonneg (py_range 0 n)) as Hl.
  destruct (Z.ltb_spec (-1 + (len (py_range 0 n) + 1)) 0); [lia|].
  replace (Z.to_nat (-1 + (len (py_range 0 n) + 1))) with (length (py_range 0 n))
    by (unfold len; lia).
  rewrite nth_error_app2 by lia. now rewrite Nat.sub_diag.
Qed.

Lemma Selection_add_after : forall (acc : Selection) (b e : Z),
  Forall (fun j : Interval => fst j <= snd j /\ snd j < b) acc -> b <= e ->
  Selection_add acc (b, e) = acc ++ [(b, e)].
Proof.
  induction acc as [|[jb je] acc IH]; intros b e Hacc Hbe; simpl; [reflexivity|].
  inversion Hacc as [|? ? [Hj1 Hj2] Hrest]; subst. simpl in *.
  destruct (Z.ltb_spec e jb); [lia|].
  destruct (Z.ltb_spec je b); [|lia].
  now rewrite IH.
Qed.

Lemma highlight_loop_plain (self : TextView) : forall positions,
  Forall (fun i => py_index (viewpos_to_origpos self) i = Ok i) positions ->
  highlight_loop self positions = Ok (map (tag_at (doc self)) positions).
Proof.
  induction positions as [|i positions IH]; intros H; simpl; [reflexivity|].
  inversion H as [|? ? Hi Hrest]; subst.
  rewrite Hi. simpl. rewrite (IH Hrest). reflexivity.
Qed.

Lemma post_plain (self : TextView) : forall sel lo,
  0 <= lo -> separated lo sel (len (text self)) = true ->
  _compute_selectionview_post self sel = Ok tt.
Proof.
  induction sel as [|[b e] sel IH]; intros lo Hlo H; simpl in *; [reflexivity|].
  rewrite !andb_true_iff, !Z.leb_le in H. destruct H as [[[H1 H2] H3] H4].
  destruct (Z.leb_spec 0 b); [|lia]. destruct (Z.leb_spec b e); [|lia].
  destruct (Z.leb_spec e (len (text self))); [|lia]. simpl.
  apply (IH (e + 1)); [lia | assumption].
Qed.

Lemma selection_loop_plain (self : TextView) (n : Z) :
  offset self = 0 -> origpos_to_viewpos self = py_range 0 (n + 1) ->
  forall todo acc lo,
    0 <= lo -> separated lo todo n = true ->
    Forall (fun j : Interval => fst j <= snd j /\ snd j < lo) acc ->
    selection_loop self 0 n todo acc = Ok (acc ++ todo).
Proof.
  intros Hoff Hfwd. induction todo as [|[b e] todo IH]; intros acc lo Hlo Hsep Hacc.
  - simpl. now rewrite app_nil_r.
  - simpl in Hsep. rewrite !andb_true_iff, !Z.leb_le in Hsep.
    destruct Hsep as [[[H1 H2] H3] H4].
    assert (Hcond : (b <? n) && (0 <? e) || (b =? e) && (e =? 0) || (b =? e) && (e =? n)
                    = true).
    { destruct (Z.ltb_spec b n), (Z.ltb_spec 0 e); simpl; try reflexivity.
      - replace e with 0 by lia. replace b with 0 by lia. reflexivity.
      - replace b with n by lia. replace e with n by lia.
        rewrite !Z.eqb_refl. simpl. now rewrite orb_true_r.
      - replace e with 0 by lia. replace b with 0 by lia. reflexivity. }
    cbn [selection_loop]. unfold project_interval.
    rewrite Hcond.
    rewrite Z.max_l, Z.min_r by lia.
    destruct (Z.leb_spec b e); [|lia]. cbn [assert_ mbind result_bind].
    rewrite Hoff, Hfwd, !Z.sub_0_r.
    rewrite !py_index_py_range by lia. cbn [mbind result_bind].
    unfold mkInterval. rewrite !Z.add_0_l.
    destruct (Z.leb_spec b e); [|lia]. cbn [assert_ mbind result_bind].
    rewrite Selection_add_after;
      [|eapply Forall_impl; [exact Hacc|]; simpl; intros; lia|assumption].
    rewrite (IH (acc ++ [(b, e)]) (e + 1)); [|lia|assumption|].
    + now rewrite <- app_assoc.
    + apply Forall_app. split.
      * eapply Forall_impl; [exact Hacc|]. simpl. intros; lia.
      * repeat constructor; simpl; lia.
Qed.

(** A document without substitutions, its selection in order with no two
    intervals touching: the view of the entire text is the document
    itself. The view text is the text, the selection is the selection,
    both mappings count from 0 to the length of the text, and every
    character has the tag of its position. *)
Theorem for_entire_text_plain (fuel : nat) (d : Document) (w : Z) :
  no_substitutions (doc_conceal d) ->
  0 < w ->
  separated 0 (doc_selection d) (len (doc_text d)) = true ->
  for_entire_text (S fuel) d w
  = Done (Ok {| doc := d; width := w; height := None; offset := 0;
                text := doc_text d;
                selection := doc_selection d;
                highlighting := map (tag_at d) (py_range 0 (len (doc_text d)));
                viewpos_to_origpos := py_range 0 (len (doc_text d) + 1);
                origpos_to_viewpos := py_range 0 (len (doc_text d) + 1) |}).
Proof.
  intros Hno Hw Hsep. unfold for_entire_text.
  destruct (Z.leb_spec w 0); [lia|].
  pose proof (len_nonneg (doc_text d)) as Hlen.
  rewrite single_pass_plain by (assumption || lia).
  cbn [mbind fueled_bind]. rewrite Z.add_0_l, py_slice_all, py_range_snoc by lia.
  do 2 f_equal. unfold finish_view.
  assert (Hsel : forall hl,
            _compute_selection
              {| doc := d; width := w; height := None; offset := 0;
                 text := doc_text d; selection := []; highlighting := hl;
                 viewpos_to_origpos := py_range 0 (len (doc_text d) + 1);
                 origpos_to_viewpos := py_range 0 (len (doc_text d) + 1) |}
            = Ok (doc_selection d)).
  { intros hl. unfold _compute_selection, post. cbn [origpos_to_viewpos text viewpos_to_origpos doc].
    rewrite len_py_range.
    destruct (Z.eqb_spec (Z.max 0 (len (doc_text d) + 1 - 0)) (len (doc_text d) + 1));
      [|lia].
    cbn [assert_ mbind result_bind].
    rewrite (py_index_py_range 0 _ 0), py_index_last_py_range by lia.
    cbn [mbind result_bind]. rewrite Z.add_0_l.
    erewrite (selection_loop_plain _ (len (doc_text d))) with (lo := 0);
      [|reflexivity|reflexivity|lia|assumption|constructor].
    cbn [mbind result_bind app].
    rewrite (post_plain _ _ 0); [reflexivity|lia|assumption]. }
  rewrite Hsel. cbn [mbind result_bind].
  unfold _compute_highlighting. cbn [text].
  rewrite highlight_loop_plain.
  - reflexivity.
  - cbn [viewpos_to_origpos].
    eapply Forall_impl; [apply py_range_bounds|]. simpl. intros i Hi.
    rewrite py_index_py_range by lia. reflexivity.
Qed.

Lemma for_entire_text_plain_witness :
  for_entire_text 1
    (make_doc (py "abcdef") [] [(0, 0); (2, 4)] {[ 1 := "kw"%string ]}) 10
  = Done (Ok {| doc := make_doc (py "abcdef") [] [(0, 0); (2, 4)] {[ 1 := "kw"%string ]};
                width := 10; height := None; offset := 0;
                text := py "abcdef";
                selection := [(0, 0); (2, 4)];
                highlighting :=
                  map (tag_at (make_doc (py "abcdef") [] [(0, 0); (2, 4)]
                                 {[ 1 := "kw"%string ]}))
                      (py_range 0 (len (py "abcdef")));
                viewpos_to_origpos := py_range 0 (len (py "abcdef") + 1);
                origpos_to_viewpos := py_range 0 (len (py "abcdef") + 1) |}).
Proof.
  apply (for_entire_text_plain 0
           (make_doc (py "abcdef") [] [(0, 0); (2, 4)] {[ 1 := "kw"%string ]}) 10).
  - split; reflexivity.
  - lia.
  - reflexivity.
Defined.

(** ** The global substitutions of a range *)

Section Bisect.
Variables (a : list Substitution) (x : Substitution).

(** The elements below [x] come first. *)
Hypothesis below_first : forall (i j : nat) (y z : Substitution),
  (i <= j)%nat -> nth_error a i = Some y -> nth_error a j = Some z ->
  Substitution_ltb z x = true -> Substitution_ltb y x = true.

Lemma bisect_loop_spec : forall (t lo hi : nat),
  (lo <= hi <= length a)%nat -> (hi - lo <= t)%nat ->
  (forall i y, (i < lo)%nat -> nth_error a i = Some y -> Substitution_ltb y x = true) ->
  (forall i y, (hi <= i)%nat -> nth_error a i = Some y -> Substitution_ltb y x = false) ->
  let k := bisect_loop t a x lo hi in
  (k <= length a)%nat
  /\ (forall i y, (i < k)%nat -> nth_error a i = Some y -> Substitution_ltb y x = true)
  /\ (forall i y, (k <= i)%nat -> nth_error a i = Some y -> Substitution_ltb y x = false).
Proof using below_first.
  induction t as [|t IH]; intros lo hi Hb Ht Hlo Hhi.
  - assert (lo = hi) by lia. subst hi. simpl.
    rewrite Nat.ltb_irrefl. repeat split; [lia|assumption|assumption].
  - rewrite bisect_loop_eq.
    destruct (Nat.ltb_spec lo hi) as [Hlt|Hge].
    2:{ assert (lo = hi) by lia. subst hi. repeat split; [lia|assumption|assumption]. }
    pose proof (Nat.div_mod_eq (lo + hi) 2) as Hdm.
    pose proof (Nat.mod_upper_bound (lo + hi) 2) as Hmod.
    set (mid := ((lo + hi) / 2)%nat) in *.
    assert (Hmid : (lo <= mid < hi)%nat) by lia.
    destruct (nth_error a mid) as [y|] eqn:Hy.
    2:{ apply nth_error_None in Hy. lia. }
    destruct (Substitution_ltb y x) eqn:Hp.
    + apply IH; [lia|lia| |assumption].
      intros i z Hi Hz. apply (below_first i mid z y); [lia|assumption|assumption|assumption].
    + apply IH; [lia|lia|assumption|].
      intros i z Hi Hz. destruct (Substitution_ltb z x) eqn:Hpz; [|reflexivity].
      rewrite (below_first mid i y z) in Hp; [discriminate|lia|assumption|assumption|assumption].
Qed.

Lemma bisect_left_spec :
  let k := bisect_left a x in
  (k <= length a)%nat
  /\ Forall (fun y => Substitution_ltb y x = true) (firstn k a)
  /\ Forall (fun y => Substitution_ltb y x = false) (skipn k a).
Proof using below_first.
  destruct (bisect_loop_spec (length a) 0 (length a)) as (Hk & Hlo & Hhi);
    [lia|lia| | |].
  - intros i y Hi. lia.
  - intros i y Hi Hy. assert (nth_error a i <> None) by congruence.
    apply nth_error_Some in H. lia.
  - fold (bisect_left a x) in Hk, Hlo, Hhi. simpl.
    split; [assumption|]. split; apply List.Forall_forall; intros y Hin;
      apply In_nth_error in Hin; destruct Hin as [i Hi].
    + destruct (Nat.ltb_spec i (bisect_left a x)) as [Hlt|Hge].
      * rewrite nth_error_firstn in Hi.
        destruct (Nat.ltb_spec i (bisect_left a x)); [|lia].
        now apply (Hlo i).
      * assert (nth_error (firstn (bisect_left a x) a) i <> None) by congruence.
        apply nth_error_Some in H. rewrite length_firstn in H. lia.
    + rewrite nth_error_skipn in Hi. apply (Hhi _ _ (Nat.le_add_r _ _) Hi).
Qed.

End Bisect.

Lemma begins_ascend_wf : forall subs,
  begins_ascend subs = true -> Forall (fun s : Substitution => fst (fst s) <= snd (fst s)) subs.
Proof.
  induction subs as [|[[b e] r] subs IH]; intros H; [constructor|].
  simpl in H. rewrite !andb_true_iff in H. destruct H as [[H1 _] H3].
  constructor; [simpl; lia|auto].
Qed.

Lemma begins_ascend_head : forall subs b e r,
  begins_ascend (((b, e), r) :: subs) = true ->
  Forall (fun s : Substitution => b <= fst (fst s)) subs.
Proof.
  induction subs as [|[[b' e'] r'] subs IH]; intros b e r H; [constructor|].
  cbn [begins_ascend] in H. apply andb_prop in H. destruct H as [H12 H3].
  apply andb_prop in H12. destruct H12 as [H1 H2].
  constructor; [simpl; lia|].
  eapply Forall_impl; [apply (IH b' e' r'); exact H3|].
  simpl. intros; lia.
Qed.

Lemma begins_ascend_nth : forall subs (i j : nat) y z,
  begins_ascend subs = true -> (i <= j)%nat ->
  nth_error subs i = Some y -> nth_error subs j = Some z ->
  fst (fst y) <= fst (fst z).
Proof.
  induction subs as [|[[b e] r] subs IH]; intros i j y z H Hij Hy Hz.
  - destruct i; discriminate.
  - destruct i as [|i], j as [|j]; simpl in Hy, Hz; try lia.
    + injection Hy as <-. injection Hz as <-. lia.
    + injection Hy as <-. apply nth_error_In in Hz.
      pose proof (begins_ascend_head _ _ _ _ H) as Hall.
      rewrite List.Forall_forall in Hall. apply (Hall z Hz).
    + apply (IH i j y z); [|lia|assumption|assumption].
      simpl in H. rewrite !andb_true_iff in H. tauto.
Qed.

(** Against the key [((k, k), '')] a well-formed substitution is smaller
    precisely when it begins before [k]. *)
Lemma ltb_key (s : Substitution) (k : Z) :
  fst (fst s) <= snd (fst s) ->
  Substitution_ltb s ((k, k), []) = (fst (fst s) <? k).
Proof.
  destruct s as [[b e] r]. simpl. intros Hwf.
  unfold Substitution_ltb, Interval_ltb, Interval_eqb. simpl.
  replace (str_ltb r []) with false by (destruct r; reflexivity).
  destruct (Z.ltb_spec b k), (Z.eqb_spec b k), (Z.ltb_spec e k), (Z.eqb_spec e k);
    simpl; try reflexivity; lia.
Qed.

Lemma filter_all {A} (p : A -> bool) (l : list A) :
  Forall (fun y => p y = true) l -> List.filter p l = l.
Proof.
  induction 1 as [|y l Hy _ IH]; simpl; [reflexivity|]. now rewrite Hy, IH.
Qed.

Lemma filter_none {A} (p : A -> bool) (l : list A) :
  Forall (fun y => p y = false) l -> List.filter p l = [].
Proof.
  induction 1 as [|y l Hy _ IH]; simpl; [reflexivity|]. now rewrite Hy, IH.
Qed.

Lemma Forall_firstn {A} (P : A -> Prop) (l : list A) (k : nat) :
  Forall P l -> Forall P (firstn k l).
Proof.
  intros H. rewrite List.Forall_forall in *. intros y Hy. apply H.
  rewrite <- (firstn_skipn k l). apply in_or_app. now left.
Qed.

Lemma Forall_skipn {A} (P : A -> Prop) (l : list A) (k : nat) :
  Forall P l -> Forall P (skipn k l).
Proof.
  intros H. rewrite List.Forall_forall in *. intros y Hy. apply H.
  rewrite <- (firstn_skipn k l). apply in_or_app. now right.
Qed.

(** The two binary searches of the single pass keep the global
    substitutions that begin inside the range, and no other: one that
    begins before the range and reaches into it is left out. *)
Theorem relevant_substitutions_begin_in_range (c : Conceal) (obeg n : Z) :
  begins_ascend (global_substitutions c) = true ->
  relevant_substitutions c obeg n
  = py_sort (generate_local_substitutions c obeg n
             ++ List.filter (begins_in obeg n) (global_substitutions c)).
Proof.
  intros Hasc. unfold relevant_substitutions. do 2 f_equal.
  set (a := global_substitutions c) in *.
  pose proof (begins_ascend_wf a Hasc) as Hwf.
  assert (Hmono : forall k (i j : nat) y z, (i <= j)%nat ->
            nth_error a i = Some y -> nth_error a j = Some z ->
            Substitution_ltb z ((k, k), []) = true ->
            Substitution_ltb y ((k, k), []) = true).
  { intros k i j y z Hij Hy Hz Hp.
    pose proof (begins_ascend_nth a i j y z Hasc Hij Hy Hz) as Hle.
    rewrite List.Forall_forall in Hwf.
    rewrite ltb_key in * by (apply Hwf; eapply nth_error_In; eassumption).
    apply Z.ltb_lt in Hp. apply Z.ltb_lt. lia. }
  destruct (bisect_left_spec a ((obeg, obeg), []) (Hmono obeg)) as (Hk1 & Hlo1 & Hhi1).
  destruct (bisect_left_spec a ((obeg + n, obeg + n), []) (Hmono (obeg + n)))
    as (Hk2 & Hlo2 & Hhi2).
  set (k1 := bisect_left a ((obeg, obeg), [])) in *.
  set (k2 := bisect_left a ((obeg + n, obeg + n), [])) in *.
  assert (Hbefore : Forall (fun s => begins_in obeg n s = false) (firstn k1 a)).
  { pose proof (Forall_firstn _ a k1 Hwf) as Hw.
    rewrite List.Forall_forall in *. intros s Hs. specialize (Hlo1 s Hs).
    rewrite ltb_key in Hlo1 by (apply Hw, Hs). apply Z.ltb_lt in Hlo1.
    unfold begins_in. destruct (Z.leb_spec obeg (fst (fst s))); [lia|reflexivity]. }
  assert (Hafter : Forall (fun s => begins_in obeg n s = false) (skipn k2 a)).
  { pose proof (Forall_skipn _ a k2 Hwf) as Hw.
    rewrite List.Forall_forall in *. intros s Hs. specialize (Hhi2 s Hs).
    rewrite ltb_key in Hhi2 by (apply Hw, Hs). apply Z.ltb_ge in Hhi2.
    unfold begins_in. destruct (Z.ltb_spec (fst (fst s)) (obeg + n)); [lia|].
    now rewrite andb_false_r. }
  assert (Hinside : Forall (fun s => begins_in obeg n s = true) (slice_nat a k1 k2)).
  { unfold slice_nat. apply List.Forall_forall. intros s Hs.
    apply In_nth_error in Hs. destruct Hs as [i Hi].
    assert (Hi' : (i < k2 - k1)%nat).
    { assert (Hsome : nth_error (firstn (k2 - k1) (skipn k1 a)) i <> None) by congruence.
      apply nth_error_Some in Hsome. rewrite length_firstn in Hsome. lia. }
    rewrite nth_error_firstn in Hi.
    destruct (Nat.ltb_spec i (k2 - k1)); [|lia].
    assert (Hin1 : In s (skipn k1 a)) by (eapply nth_error_In; eassumption).
    rewrite nth_error_skipn in Hi.
    assert (Hin2 : In s (firstn k2 a)).
    { apply (nth_error_In _ (k1 + i)). rewrite nth_error_firstn.
      destruct (Nat.ltb_spec (k1 + i) k2); [assumption|lia]. }
    rewrite List.Forall_forall in Hhi1, Hlo2, Hwf.
    specialize (Hhi1 s Hin1). specialize (Hlo2 s Hin2).
    assert (Hw : fst (fst s) <= snd (fst s))
      by (apply Hwf; eapply nth_error_In; eassumption).
    rewrite ltb_key in Hhi1, Hlo2 by assumption.
    apply Z.ltb_ge in Hhi1. apply Z.ltb_lt in Hlo2.
    unfold begins_in. apply andb_true_iff. split; [apply Z.leb_le|apply Z.ltb_lt]; lia. }
  destruct (Nat.le_gt_cases k1 k2) as [Hle|Hgt].
  - assert (Hsplit : a = firstn k1 a ++ slice_nat a k1 k2 ++ skipn k2 a).
    { unfold slice_nat.
      replace (skipn k2 a) with (skipn (k2 - k1) (skipn k1 a))
        by (rewrite skipn_skipn; f_equal; lia).
      now rewrite firstn_skipn, firstn_skipn. }
    rewrite Hsplit at 2. rewrite !List.filter_app.
    rewrite (filter_none _ _ Hbefore), (filter_none _ _ Hafter), (filter_all _ _ Hinside).
    now rewrite app_nil_r.
  - unfold slice_nat. replace (k2 - k1)%nat with 0%nat by lia. simpl.
    symmetry. apply filter_none.
    rewrite <- (firstn_skipn k1 a). apply Forall_app. split; [assumption|].
    replace (skipn k1 a) with (skipn (k1 - k2) (skipn k2 a))
      by (rewrite skipn_skipn; f_equal; lia).
    now apply Forall_skipn.
Qed.

Lemma relevant_substitutions_begin_in_range_witness :
  relevant_substitutions
    {| generate_local_substitutions := no_local_substitutions;
       global_substitutions := [((0, 3), py "X"); ((4, 5), py "Y"); ((7, 7), py "Z")] |}
    2 4
  = py_sort (no_local_substitutions 2 4
             ++ List.filter (begins_in 2 4)
                  [((0, 3), py "X"); ((4, 5), py "Y"); ((7, 7), py "Z")]).
Proof.
  apply (relevant_substitutions_begin_in_range
           {| generate_local_substitutions := no_local_substitutions;
              global_substitutions :=
                [((0, 3), py "X"); ((4, 5), py "Y"); ((7, 7), py "Z")] |} 2 4).
  reflexivity.
Defined.

(** ** The rows of a view *)

Lemma py_splitlines_from_concat : forall (k : nat) (rest line : str),
  (length rest <= k)%nat ->
  concat (py_splitlines_from line rest)
  = rev line ++ List.filter (fun c => negb (is_line_boundary c)) rest.
Proof.
  induction k as [|k IH]; intros rest line Hk.
  - destruct rest; [|simpl in Hk; lia]. simpl.
    destruct line; simpl; now rewrite ?app_nil_r.
  - destruct rest as [|c rest']; simpl.
    + destruct line; simpl; now rewrite ?app_nil_r.
    + simpl in Hk. destruct (is_line_boundary c) eqn:Hc; simpl.
      * f_equal. destruct rest' as [|c' rest'']; [reflexivity|].
        destruct (is_cr c && is_lf c') eqn:Hcr.
        -- rewrite IH by (simpl in Hk; lia). simpl.
           apply andb_prop in Hcr. destruct Hcr as [_ Hlf].
           assert (Hb : is_line_boundary c' = true).
           { unfold is_lf in Hlf. apply Nat.eqb_eq in Hlf.
             unfold is_line_boundary. rewrite Hlf. reflexivity. }
           now rewrite Hb.
        -- rewrite IH by lia. reflexivity.
      * rewrite IH by lia. simpl. now rewrite <- app_assoc.
Qed.

Lemma py_splitlines_concat (text : str) :
  concat (py_splitlines text) = List.filter (fun c => negb (is_line_boundary c)) text.
Proof. apply (py_splitlines_from_concat (length text)). lia. Qed.

Lemma py_ceil_div_bounds (a b : Z) :
  0 < b -> b * (py_ceil_div a b - 1) < a <= b * py_ceil_div a b.
Proof.
  intros Hb. unfold py_ceil_div.
  pose proof (Z.mul_div_le (- a) b Hb).
  pose proof (Z.mul_succ_div_gt (- a) b Hb). lia.
Qed.

Lemma concat_slices (line : str) (w : Z) (k : nat) :
  0 < w ->
  concat (map (fun i => py_slice line (w * i) (w * (i + 1))) (py_range 0 (Z.of_nat k)))
  = py_slice line 0 (w * Z.of_nat k).
Proof.
  intros Hw. induction k as [|k IH].
  - simpl. rewrite Z.mul_0_r. now rewrite py_slice_empty.
  - replace (Z.of_nat (S k)) with (Z.of_nat k + 1) by lia.
    rewrite <- py_range_snoc by lia.
    rewrite map_app, concat_app, IH. simpl. rewrite app_nil_r.
    apply py_slice_app; nia.
Qed.

Lemma py_slice_beyond (line : str) (b : Z) : len line <= b -> py_slice line 0 b = line.
Proof.
  intros Hb. pose proof (len_nonneg line).
  rewrite py_slice_nonneg by lia. unfold slice_nat, len in *. simpl.
  apply firstn_all2. lia.
Qed.

Lemma wrap_line_concat (w : Z) (line : str) : 0 < w -> concat (wrap_line w line) = line.
Proof.
  intros Hw. unfold wrap_line.
  pose proof (py_ceil_div_bounds (len line) w Hw) as Hk.
  pose proof (len_nonneg line).
  assert (0 <= py_ceil_div (len line) w) by nia.
  rewrite <- (Z2Nat.id (py_ceil_div (len line) w)) by assumption.
  rewrite concat_slices by assumption.
  apply py_slice_beyond. rewrite Z2Nat.id by assumption. lia.
Qed.

Lemma wrap_line_rows (w : Z) (line : str) :
  0 < w -> Forall (fun row => 1 <= len row <= w) (wrap_line w line).
Proof.
  intros Hw. unfold wrap_line.
  pose proof (py_ceil_div_bounds (len line) w Hw) as Hk.
  apply Forall_map. eapply Forall_impl; [apply py_range_bounds|].
  simpl. intros i Hi.
  rewrite py_slice_nonneg by nia.
  unfold len in *. rewrite slice_nat_length. nia.
Qed.

Lemma wrap_lines_rows (w : Z) (lines : list str) :
  0 < w -> Forall (fun row => 1 <= len row <= w) (concat (map (wrap_line w) lines)).
Proof.
  intros Hw. induction lines as [|x l IH]; simpl; [constructor|].
  apply Forall_app. split; [now apply wrap_line_rows|exact IH].
Qed.

Lemma wrap_lines_concat (w : Z) (lines : list str) :
  0 < w -> concat (concat (map (wrap_line w) lines)) = concat lines.
Proof.
  intros Hw. induction lines as [|x l IH]; simpl; [reflexivity|].
  rewrite concat_app, IH, wrap_line_concat by assumption. reflexivity.
Qed.

Section LinesFacts.
Context {nav : Navigation}.

(** The rows [text_as_lines] returns for a positive width are the text
    without its line boundaries, cut into rows of one to [width]
    characters: an empty line gives no row. *)
Theorem text_as_lines_rows (self : TextView) (rows : list str) :
  0 < width self ->
  text_as_lines self = Lines rows ->
  Forall (fun row => 1 <= len row <= width self) rows
  /\ concat rows = List.filter (fun c => negb (is_line_boundary c)) (text self).
Proof.
  intros Hw. unfold text_as_lines.
  rewrite <- py_splitlines_concat.
  destruct (py_splitlines (text self)) as [|line lines] eqn:Hlines.
  - destruct (0 =? _); [|discriminate]. intros [= <-]. split; [constructor|reflexivity].
  - destruct (Z.eqb_spec (width self) 0); [lia|].
    destruct (_ =? _); [|discriminate]. intros [= <-]. split.
    + now apply (wrap_lines_rows (width self) (line :: lines)).
    + now apply (wrap_lines_concat (width self) (line :: lines)).
Qed.

End LinesFacts.

Lemma text_as_lines_rows_witness :
  Forall (fun row => 1 <= len row <= width two_lines_view)
         [py "abc"; py "def"; py "g"; py "hi"]
  /\ concat [py "abc"; py "def"; py "g"; py "hi"]
     = List.filter (fun c => negb (is_line_boundary c)) (text two_lines_view).
Proof.
  apply (text_as_lines_rows (nav := WrapModel.navigation) two_lines_view
           [py "abc"; py "def"; py "g"; py "hi"]).
  - reflexivity.
  - reflexivity.
Defined.
